(** * vsqlite: the interactive session core of a terminal SQLite client

    A shallow embedding of [main.go]: the history store ([dedupHistory],
    [loadHistory], [saveHistory]), the command router ([executor]) and the
    prompt loop of [main], the value formatter and the three renderers
    ([formatValue], [printPrettyTable], [printExpanded], [printJSON]) and
    the completion engine ([getColumnSuggestions], [completer]), followed
    by the properties of the design document that were checked against
    them and by further properties of the code.

    Go strings are byte sequences; they are embedded as [string], whose
    characters are the 256 values of [ascii].  The functions of the Go
    standard library that the program calls ([strings.TrimSpace],
    [bufio.Scanner], [hex.EncodeToString], [fmt.Sscanf] ...) are modelled
    after their Go sources, on byte lists. *)

From Stdlib Require Import NArith ZArith Ascii String Bool Lia.
From stdpp Require Import gmap strings list sorting.

Local Open Scope N_scope.

(** ** Bytes and strings *)

Definition byte (c : ascii) : N := N_of_ascii c.

Definition LF : ascii := "010"%char.
Definition CR : ascii := "013"%char.
Definition nl : string := String LF "".
Definition tab : string := String "009" "".

Definition bytes_of (s : string) : list ascii := list_ascii_of_string s.
Definition string_of (l : list ascii) : string := string_of_list_ascii l.

(** [s[i]]; Go panics out of range, and every call below stays in range. *)
Definition byteAt (s : list ascii) (i : nat) : N :=
  match s !! i with
  | Some c => byte c
  | None => 0
  end.

(** ** unicode/utf8 *)

Definition RuneError : N := 0xFFFD.
Definition RuneSelf : N := 0x80.
Definition UTFMax : nat := 4.

Definition maskx : N := 0x3F.
Definition mask2 : N := 0x1F.
Definition mask3 : N := 0x0F.
Definition mask4 : N := 0x07.
Definition locb : N := 0x80.
Definition hicb : N := 0xBF.

(** The entries of the table [first]: the low three bits give the length
    of the sequence, the high four bits index [acceptRanges]. *)
Definition xx : N := 0xF1.
Definition as_ : N := 0xF0.
Definition s1 : N := 0x02.
Definition s2 : N := 0x13.
Definition s3 : N := 0x03.
Definition s4 : N := 0x23.
Definition s5 : N := 0x34.
Definition s6 : N := 0x04.
Definition s7 : N := 0x44.

Definition first (b : N) : N :=
  if b <? 0x80 then as_
  else if b <? 0xC2 then xx
  else if b <? 0xE0 then s1
  else if b =? 0xE0 then s2
  else if b <? 0xED then s3
  else if b =? 0xED then s4
  else if b <? 0xF0 then s3
  else if b =? 0xF0 then s5
  else if b <? 0xF4 then s6
  else if b =? 0xF4 then s7
  else xx.

Record acceptRange := { lo : N; hi : N }.

Definition acceptRanges (i : N) : acceptRange :=
  match i with
  | 0 => {| lo := locb; hi := hicb |}
  | 1 => {| lo := 0xA0; hi := hicb |}
  | 2 => {| lo := locb; hi := 0x9F |}
  | 3 => {| lo := 0x90; hi := hicb |}
  | 4 => {| lo := locb; hi := 0x8F |}
  | _ => {| lo := 0; hi := 0 |}
  end.

(** [utf8.DecodeRuneInString]: the first rune of [s] and its width in
    bytes; [(RuneError, 1)] on an invalid or truncated encoding. *)
Definition DecodeRuneInString (s : list ascii) : N * nat :=
  match s with
  | [] => (RuneError, 0%nat)
  | c0 :: _ =>
    let b0 := byte c0 in
    let x := first b0 in
    if as_ <=? x then
      ((if N.testbit x 0 then RuneError else b0), 1%nat)
    else
      let sz := N.to_nat (N.land x 7) in
      let accept := acceptRanges (N.shiftr x 4) in
      if (length s <? sz)%nat then (RuneError, 1%nat) else
      let b1 := byteAt s 1 in
      if (b1 <? lo accept) || (hi accept <? b1) then (RuneError, 1%nat) else
      if (sz <=? 2)%nat then
        (N.lor (N.shiftl (N.land b0 mask2) 6) (N.land b1 maskx), 2%nat)
      else
      let b2 := byteAt s 2 in
      if (b2 <? locb) || (hicb <? b2) then (RuneError, 1%nat) else
      if (sz <=? 3)%nat then
        (N.lor (N.lor (N.shiftl (N.land b0 mask3) 12)
                      (N.shiftl (N.land b1 maskx) 6))
               (N.land b2 maskx), 3%nat)
      else
      let b3 := byteAt s 3 in
      if (b3 <? locb) || (hicb <? b3) then (RuneError, 1%nat) else
        (N.lor (N.lor (N.lor (N.shiftl (N.land b0 mask4) 18)
                             (N.shiftl (N.land b1 maskx) 12))
                      (N.shiftl (N.land b2 maskx) 6))
               (N.land b3 maskx), 4%nat)
  end.

(** [utf8.RuneStart]: not a continuation byte. *)
Definition RuneStart (b : N) : bool := negb (N.land b 0xC0 =? 0x80).

(** The loop [for start--; start >= lim; start-- { if RuneStart(s[start])
    { break } }] of [DecodeLastRuneInString]; it runs at most [UTFMax - 1]
    times.  [start] is a Go [int] and can reach [-1]. *)
Fixpoint backToStart (s : list ascii) (lim start : Z) (n : nat) : Z :=
  match n with
  | O => start
  | S n' =>
    if (start <? lim)%Z then start
    else if RuneStart (byteAt s (Z.to_nat start)) then start
    else backToStart s lim (start - 1)%Z n'
  end.

(** [utf8.DecodeLastRuneInString]: the last rune of [s] and its width. *)
Definition DecodeLastRuneInString (s : list ascii) : N * nat :=
  let end_ := length s in
  if (end_ =? 0)%nat then (RuneError, 0%nat) else
  let r := byteAt s (end_ - 1) in
  if r <? RuneSelf then (r, 1%nat) else
  let lim := Z.max (Z.of_nat end_ - Z.of_nat UTFMax) 0 in
  let start := backToStart s lim (Z.of_nat end_ - 2)%Z (UTFMax - 1) in
  let start := Z.to_nat (if (start <? 0)%Z then 0%Z else start) in
  let '(r, size) := DecodeRuneInString (drop start s) in
  if negb (start + size =? end_)%nat then (RuneError, 1%nat) else (r, size).

(** ** unicode.IsSpace *)

(** The Latin-1 switch, then the ranges of the [White_Space] table above
    Latin-1. *)
Definition IsSpace (r : N) : bool :=
  if r <=? 0xFF then
    (r =? 0x09) || (r =? 0x0A) || (r =? 0x0B) || (r =? 0x0C) || (r =? 0x0D)
    || (r =? 0x20) || (r =? 0x85) || (r =? 0xA0)
  else
    (r =? 0x1680) || ((0x2000 <=? r) && (r <=? 0x200A))
    || ((0x2028 <=? r) && (r <=? 0x2029)) || (r =? 0x202F) || (r =? 0x205F)
    || (r =? 0x3000).

(** ** strings *)

(** [strings.TrimLeftFunc(s, unicode.IsSpace)]: the [range] loop of
    [indexFunc] decodes a rune at every rune boundary; [skip] counts the
    bytes of the current rune still to be passed over.  The result is
    [s[i:]] for the first [i] whose rune is not white space, and the empty
    string when there is none. *)
Fixpoint trimLeftFrom (skip : nat) (s : list ascii) : list ascii :=
  match s with
  | [] => []
  | _ :: t =>
    match skip with
    | S k => trimLeftFrom k t
    | O =>
      let '(r, size) := DecodeRuneInString s in
      if IsSpace r then trimLeftFrom (size - 1) t else s
    end
  end.

Definition TrimLeftSpace (s : list ascii) : list ascii := trimLeftFrom 0 s.

(** [lastIndexFunc(s, unicode.IsSpace, false)]: [for i := len(s); i > 0; ]
    decoding the last rune of [s[0:i]]; every turn lowers [i], so
    [len(s)] turns are enough.  [-1] when every rune is white space. *)
Fixpoint lastIndexNonSpace (s : list ascii) (turns i : nat) : Z :=
  match turns with
  | O => (-1)%Z
  | S k =>
    if (i =? 0)%nat then (-1)%Z else
    let '(r, size) := DecodeLastRuneInString (take i s) in
    let i' := (i - size)%nat in
    if negb (IsSpace r) then Z.of_nat i' else lastIndexNonSpace s k i'
  end.

(** [strings.TrimRightFunc(s, unicode.IsSpace)]. *)
Definition TrimRightSpace (s : list ascii) : list ascii :=
  let i := lastIndexNonSpace s (length s) (length s) in
  if (0 <=? i)%Z && (RuneSelf <=? byteAt s (Z.to_nat i)) then
    let '(_, wid) := DecodeRuneInString (drop (Z.to_nat i) s) in
    take (Z.to_nat i + wid) s
  else
    take (Z.to_nat (i + 1)) s.

(** [strings.TrimSpace]: leading and trailing white space, as defined by
    Unicode, removed. *)
Definition TrimSpace (s : string) : string :=
  string_of (TrimRightSpace (TrimLeftSpace (bytes_of s))).

(** [strings.HasPrefix], [strings.HasSuffix], [strings.TrimPrefix],
    [strings.TrimSuffix] and [strings.Join]. *)
Definition HasPrefix (s prefix : string) : bool :=
  (String.length prefix <=? String.length s)%nat &&
  String.eqb (substring 0 (String.length prefix) s) prefix.

Definition HasSuffix (s suffix : string) : bool :=
  (String.length suffix <=? String.length s)%nat &&
  String.eqb (substring (String.length s - String.length suffix)
                        (String.length suffix) s) suffix.

Definition TrimPrefix (s prefix : string) : string :=
  if HasPrefix s prefix then
    substring (String.length prefix)
              (String.length s - String.length prefix) s
  else s.

Definition TrimSuffix (s suffix : string) : string :=
  if HasSuffix s suffix then
    substring 0 (String.length s - String.length suffix) s
  else s.

Fixpoint Join (elems : list string) (sep : string) : string :=
  match elems with
  | [] => ""
  | [e] => e
  | e :: rest => e +:+ sep +:+ Join rest sep
  end.

(** ** The history store *)

(** The delimiter to use in the history file. *)
Definition customHistoryDelimiter : string := "---".

(** One turn of the backward loop of [dedupHistory] at index [i]: a blank
    line is passed over, and a trimmed text is recorded with the first
    index it is met at. *)
Definition recordSeen (lines : list string) (i : nat)
    (seen : gmap string nat) : gmap string nat :=
  match lines !! i with
  | None => seen
  | Some l =>
    let line := TrimSpace l in
    if decide (line = "") then seen
    else match seen !! line with
         | Some _ => seen
         | None => <[line := i]> seen
         end
  end.

(** [for i := len(lines) - 1; i >= 0; i--]: [n] is the number of turns
    left, so the turn runs at index [n - 1]. *)
Fixpoint scanBackward (lines : list string) (n : nat)
    (seen : gmap string nat) : gmap string nat :=
  match n with
  | O => seen
  | S i => scanBackward lines i (recordSeen lines i seen)
  end.

(** [sort.Ints]. *)
Definition sort_Ints (a : list nat) : list nat := merge_sort (≤)%nat a.

(** The indices collected from the map [seen].  Go ranges over a map in an
    unspecified order; the order [map_to_list] picks is one of them, and
    [sort_Ints] makes the result independent of it. *)
Definition seenIndices (seen : gmap string nat) : list nat :=
  (map_to_list seen).*2.

Definition dedupHistory (lines : list string) : list string :=
  let seen := scanBackward lines (length lines) ∅ in
  let indices := sort_Ints (seenIndices seen) in
  (λ idx, lines !!! idx) <$> indices.

(** [saveToHistory]. *)
Definition saveToHistory (historyLines : list string) (cmd : string)
    : list string :=
  historyLines ++ [cmd].

(** *** bufio.Scanner with the default split function [ScanLines] *)

(** The pieces of [data] between line feeds: [strings.Split(data, "\n")]. *)
Fixpoint splitLF (data : string) : list string :=
  match data with
  | "" => [""]
  | String c rest =>
    if decide (c = LF) then "" :: splitLF rest
    else match splitLF rest with
         | piece :: pieces => String c piece :: pieces
         | [] => [String c ""]
         end
  end.

(** At the end of the input [ScanLines] returns the last piece only when
    it is not empty. *)
Fixpoint dropFinalEmpty (pieces : list string) : list string :=
  match pieces with
  | [] => []
  | [last] => if decide (last = "") then [] else [last]
  | piece :: rest => piece :: dropFinalEmpty rest
  end.

(** [dropCR]: a trailing carriage return is not part of the line. *)
Fixpoint dropCR (data : string) : string :=
  match data with
  | "" => ""
  | String c "" => if decide (c = CR) then "" else data
  | String c rest => String c (dropCR rest)
  end.

(** A line must be found inside a buffer of at most [MaxScanTokenSize]
    bytes, its line feed included; on a longer line [Scan] gives up with
    [ErrTooLong] and returns false for good. *)
Definition MaxScanTokenSize : N := 65536.

Definition fitsBuffer (piece : string) : bool :=
  (N.of_nat (String.length piece) <? MaxScanTokenSize)%N.

Fixpoint takeWhile {A} (f : A → bool) (l : list A) : list A :=
  match l with
  | [] => []
  | x :: rest => if f x then x :: takeWhile f rest else []
  end.

(** The values of [scanner.Text()] over the turns of
    [for scanner.Scan() { ... }]. *)
Definition scanLines (data : string) : list string :=
  dropCR <$> takeWhile fitsBuffer (dropFinalEmpty (splitLF data)).

(** *** loadHistory and saveHistory *)

(** The body of the loop of [loadHistory] over the scanned lines, and the
    flush of the last block after it. *)
Fixpoint loadBlocks (scanned block historyLines : list string)
    : list string :=
  match scanned with
  | [] =>
    match block with
    | [] => historyLines
    | _ => historyLines ++ [Join block nl]
    end
  | line :: rest =>
    if decide (line = customHistoryDelimiter) then
      match block with
      | [] => loadBlocks rest block historyLines
      | _ => loadBlocks rest [] (historyLines ++ [Join block nl])
      end
    else loadBlocks rest (block ++ [line]) historyLines
  end.

(** [loadHistory]: [file] is the content of the history file, [None] when
    [os.Open] fails; the global [historyLines] is passed in and returned. *)
Definition loadHistory (file : option string) (historyLines : list string)
    : list string :=
  match file with
  | None => historyLines
  | Some data => dedupHistory (loadBlocks (scanLines data) [] historyLines)
  end.

(** What [saveHistory] writes for one entry. *)
Definition historyBlock (entry : string) : string :=
  customHistoryDelimiter +:+ nl +:+ entry +:+
  (if HasSuffix entry nl then "" else nl).

(** [saveHistory]: the new content of the history file.  [O_APPEND] adds to
    what the file holds, [O_CREATE] creates a missing file; [openFails]
    stands for an error of [os.OpenFile]. *)
Definition saveHistory (openFails : bool) (file : option string)
    (historyLines : list string) : option string :=
  match historyLines with
  | [] => file
  | _ =>
    if openFails then file
    else Some (default "" file +:+
               foldr (λ entry written, historyBlock entry +:+ written) ""
                     historyLines)
  end.

(** ** The command router *)

(** The package-level variables [expandedMode], [jsonMode] and
    [historyLines]; the connection [db] is the engine, outside the
    model. *)
Record Session := {
  expandedMode : bool;
  jsonMode : bool;
  historyLines : list string
}.

Definition onOff (b : bool) : string := if b then "on" else "off".

(** The render path a statement takes. *)
Inductive RenderPath := Expanded | JSON | Table.

(** What one call of [executor] does besides changing the session: the
    lines it prints itself, and the helpers and engine calls it hands the
    line to. *)
Inductive Action :=
  | Printf (text : string)
  | PrintSchemaPretty (table : string)
  | PrintRelationList
  | PrintIndexList
  | HandleSchemaCommand (query : string)
  | Query (query : string) (render : RenderPath).

(** [Exit] is [os.Exit(0)]. *)
Inductive Outcome :=
  | Exit
  | Continue (s : Session) (did : list Action).

Definition executor (s : Session) (input : string) : Outcome :=
  (* Make sure that we don't execute empty queries. *)
  let query := TrimSpace input in
  if decide (query = "") then Continue s [] else
  let s := {| expandedMode := expandedMode s; jsonMode := jsonMode s;
              historyLines := saveToHistory (historyLines s) query |} in
  if decide (query = "exit") then Exit
  else if decide (query = "\x") then
    let expanded := negb (expandedMode s) in
    let json := if expanded then false else jsonMode s in
    Continue {| expandedMode := expanded; jsonMode := json;
                historyLines := historyLines s |}
             [Printf ("Expanded display is now " +:+ onOff expanded +:+ nl)]
  else if decide (query = "\j") then
    let json := negb (jsonMode s) in
    let expanded := if json then false else expandedMode s in
    Continue {| expandedMode := expanded; jsonMode := json;
                historyLines := historyLines s |}
             [Printf ("JSON output is now " +:+ onOff json +:+ nl)]
  else if HasPrefix query "\d " then
    let table := TrimSuffix (TrimPrefix query "\d ") ";" in
    if decide (table = "") then
      Continue s [Printf ("Usage: \d <table>" +:+ nl)]
    else Continue s [PrintSchemaPretty table]
  else if bool_decide (TrimSpace query = "\d")
          || bool_decide (TrimSpace query = "\d;") then
    Continue s [PrintRelationList]
  else if bool_decide (TrimSpace query = "\di")
          || bool_decide (TrimSpace query = "\di;") then
    Continue s [PrintIndexList]
  else if HasPrefix query ".schema" then
    Continue s [HandleSchemaCommand query]
  else
    Continue s [Query query (if expandedMode s then Expanded
                             else if jsonMode s then JSON else Table)].

(** The session when [main] enters the prompt loop: both flags hold the
    zero value of [bool], and the log is what [loadHistory] read. *)
Definition startup (file : option string) : Session :=
  {| expandedMode := false; jsonMode := false;
     historyLines := loadHistory file [] |}.

(** The sessions the prompt loop passes through. *)
Inductive reachable : Session → Prop :=
  | reachable_startup file : reachable (startup file)
  | reachable_executor s input s' did :
      reachable s → executor s input = Continue s' did → reachable s'.

(** ** Cell values *)

(** A [float64] is carried as its IEEE 754 bit pattern. *)
Definition float64 : Type := N.

(** The fields [time.Time] is formatted from: the civil date and clock of
    the instant in its location, and [t.Nanosecond()], the offset within
    the second. *)
Record Time := {
  Year : Z;
  Month : N;
  Day : N;
  Hour : N;
  Minute : N;
  Second : N;
  Nanosecond : N
}.

(** What [rows.Scan] stores into an [interface{}]: the value kinds of
    [database/sql/driver]. *)
Inductive Value :=
  | VNil
  | VInt64 (n : Z)
  | VFloat64 (f : float64)
  | VBool (b : bool)
  | VBytes (v : string)
  | VString (s : string)
  | VTime (t : Time).

(** ** strconv and fmt: numbers to text *)

Definition digitChar (d : N) : ascii := ascii_of_N (48 + d).

(** The decimal digits of [n] in front of [acc], most significant first;
    [turns] bounds the number of digits. *)
Fixpoint formatBits (turns : nat) (n : N) (acc : string) : string :=
  match turns with
  | O => acc
  | S k =>
    let acc := String (digitChar (n mod 10)) acc in
    if n <? 10 then acc else formatBits k (n / 10) acc
  end.

(** [strconv.FormatUint(n, 10)]; a number has no more decimal digits than
    binary digits. *)
Definition FormatUint (n : N) : string :=
  formatBits (S (N.to_nat (N.log2 n))) n "".

(** [strconv.FormatInt(n, 10)]. *)
Definition FormatInt (n : Z) : string :=
  if (n <? 0)%Z then "-" +:+ FormatUint (Z.abs_N n) else FormatUint (Z.to_N n).

Fixpoint zeros (n : nat) : string :=
  match n with
  | O => ""
  | S k => String "0" (zeros k)
  end.

(** [fmt.Sprintf("%0[width]d", n)] for [n >= 0]. *)
Definition zeroPadded (width : nat) (n : N) : string :=
  let digits := FormatUint n in
  zeros (width - String.length digits) +:+ digits.

(** [appendInt] of package [time]: the sign, then the digits zero-padded
    to [width]. *)
Definition appendInt (x : Z) (width : nat) : string :=
  (if (x <? 0)%Z then "-" else "") +:+ zeroPadded width (Z.abs_N x).

(** [t.Format("2006-01-02 15:04:05")]. *)
Definition Format_DateTime (t : Time) : string :=
  appendInt (Year t) 4 +:+ "-" +:+ zeroPadded 2 (Month t) +:+ "-" +:+
  zeroPadded 2 (Day t) +:+ " " +:+ zeroPadded 2 (Hour t) +:+ ":" +:+
  zeroPadded 2 (Minute t) +:+ ":" +:+ zeroPadded 2 (Second t).

(** ** encoding/hex and strings.ToUpper *)

Definition hextable : string := "0123456789abcdef".

(** [hextable[i]] *)
Definition hexDigit (i : N) : ascii :=
  default "0"%char (String.get (N.to_nat i) hextable).

Fixpoint EncodeToString (src : string) : string :=
  match src with
  | "" => ""
  | String c rest =>
    String (hexDigit (N.shiftr (byte c) 4))
           (String (hexDigit (N.land (byte c) 0x0F)) (EncodeToString rest))
  end.

Definition isLower (c : ascii) : bool := (97 <=? byte c) && (byte c <=? 122).

Fixpoint isASCII (s : string) : bool :=
  match s with
  | "" => true
  | String c rest => (byte c <? RuneSelf) && isASCII rest
  end.

Fixpoint hasLower (s : string) : bool :=
  match s with
  | "" => false
  | String c rest => isLower c || hasLower rest
  end.

(** [c -= 'a' - 'A'] on the lower-case letters. *)
Fixpoint upperASCII (s : string) : string :=
  match s with
  | "" => ""
  | String c rest =>
    String (if isLower c then ascii_of_N (byte c - 32) else c)
           (upperASCII rest)
  end.

Section Formatter.

(** [strings.Map(unicode.ToUpper, s)], the path of [strings.ToUpper] for a
    string with a byte outside ASCII, and the text [%v] gives a [float64]
    ([strconv.FormatFloat(f, 'g', -1, 64)]) belong to the Go library and
    stay parameters. *)
Variable MapToUpper : string → string.
Variable FormatFloat : float64 → string.

Definition ToUpper (s : string) : string :=
  if isASCII s then (if hasLower s then upperASCII s else s)
  else MapToUpper s.

(** ** The value formatter *)

Definition formatTimePadded (t : Time) : string :=
  (* Format the full second. *)
  let base := Format_DateTime t in
  (* Extract microseconds (rounded). *)
  let usec := Nanosecond t / 1000 in
  base +:+ "." +:+ zeroPadded 6 usec.

(** The [default] case is [fmt.Sprintf("%v", v)], written out for the
    value kinds left. *)
Definition formatValue (val : Value) : string :=
  match val with
  | VNil => "NULL"
  | VBytes v => "\x" +:+ ToUpper (EncodeToString v)
  | VTime v => formatTimePadded v
  | VInt64 n => FormatInt n
  | VFloat64 f => FormatFloat f
  | VBool b => if b then "true" else "false"
  | VString s => s
  end.

End Formatter.

(** ** fmt.Sscanf with the verb [%f] *)

Section Sscanf.

(** Whether [strconv.ParseFloat(s, 64)] and [strconv.Atoi(s)] return a nil
    error: parameters of the model. *)
Variable ParseFloat : string → bool.
Variable Atoi : string → bool.

(** [ss.SkipSpace] with [nlIsSpace] false, as [Sscanf] sets it: white
    space is passed over up to the first other rune, and a line feed is
    the error [unexpected newline] ([None]).  The runes are read as
    [DecodeRuneInString] decodes them; [skip] is as in [trimLeftFrom]. *)
Fixpoint skipSpaceFrom (skip : nat) (s : list ascii) : option (list ascii) :=
  match s with
  | [] => Some []
  | _ :: t =>
    match skip with
    | S k => skipSpaceFrom k t
    | O =>
      let '(r, size) := DecodeRuneInString s in
      if (r =? byte CR) && bool_decide (head t = Some LF) then
        skipSpaceFrom 0 t
      else if r =? byte LF then None
      else if IsSpace r then skipSpaceFrom (size - 1) t
      else Some s
    end
  end.

Definition SkipSpace (s : list ascii) : option (list ascii) :=
  skipSpaceFrom 0 s.

(** The character classes of [floatToken]. *)
Definition decimalDigits : string := "0123456789".
Definition hexadecimalDigits : string := "0123456789aAbBcCdDeEfF".
Definition sign : string := "+-".
Definition period : string := ".".
Definition exponent : string := "eEpP".

Definition indexByte (s : string) (c : ascii) : bool :=
  existsb (λ x, bool_decide (x = c)) (bytes_of s).

(** The scan state: [s.buf] and the input left.  [accept] consumes the
    next rune when it is in [ok].  Every class is ASCII and a byte outside
    ASCII starts a rune outside ASCII, so the test is on the next byte.
    With no width in the format the limit on the runes read for an
    operand is [hugeWid], 2^30, which no cell reaches. *)
Definition ss : Type := list ascii * list ascii.

Definition accept (ok : string) (s : ss) : bool * ss :=
  match s.2 with
  | c :: rest =>
    if indexByte ok c then (true, (s.1 ++ [c], rest)) else (false, s)
  | [] => (false, s)
  end.

(** [for s.accept(ok) { }] *)
Fixpoint acceptAll (ok : string) (buf input : list ascii) : ss :=
  match input with
  | c :: rest =>
    if indexByte ok c then acceptAll ok (buf ++ [c]) rest else (buf, input)
  | [] => (buf, [])
  end.

(** [a && b] on two scan steps. *)
Definition andThen (a b : ss → bool * ss) (s : ss) : bool * ss :=
  let '(ok, s) := a s in
  if ok then b s else (false, s).

Definition floatToken (input : list ascii) : string :=
  let s : ss := ([], input) in
  (* NaN? *)
  let '(nan, s) := andThen (andThen (accept "nN") (accept "aA")) (accept "nN") s in
  if nan then string_of s.1 else
  (* leading sign? *)
  let '(_, s) := accept sign s in
  (* Inf? *)
  let '(inf, s) := andThen (andThen (accept "iI") (accept "nN")) (accept "fF") s in
  if inf then string_of s.1 else
  let '(hex, s) := andThen (accept "0") (accept "xX") s in
  let digits := (if hex then hexadecimalDigits else decimalDigits) +:+ "_" in
  let exp := if hex then "pP" else exponent in
  (* digits? *)
  let s := acceptAll digits s.1 s.2 in
  (* decimal point? *)
  let '(dot, s) := accept period s in
  (* fraction? *)
  let s := if dot then acceptAll digits s.1 s.2 else s in
  (* exponent? *)
  let '(e, s) := accept exp s in
  let s :=
    if e then
      (* leading sign? *)
      let '(_, s) := accept sign s in
      (* digits? *)
      acceptAll (decimalDigits +:+ "_") s.1 s.2
    else s in
  string_of s.1.

Fixpoint indexRune (s : string) (c : ascii) : option nat :=
  match s with
  | "" => None
  | String x rest =>
    if decide (x = c) then Some 0%nat else S <$> indexRune rest c
  end.

Definition hasX (s : string) : bool := indexByte s "x" || indexByte s "X".

(** [ss.convertFloat]: true when it does not raise an error. *)
Definition convertFloat (str : string) : bool :=
  match indexRune str "p" with
  | Some p =>
    if negb (hasX str) then
      ParseFloat (substring 0 p str) &&
      Atoi (substring (S p) (String.length str - S p) str)
    else ParseFloat str
  | None => ParseFloat str
  end.

(** [fmt.Sscanf(s, "%f", new(float64))] returns a nil error. *)
Definition Sscanf_f (s : string) : bool :=
  match SkipSpace (bytes_of s) with
  | None => false
  | Some [] => false
  | Some input => convertFloat (floatToken input)
  end.

Definition isNumeric (s : string) : bool := Sscanf_f s.

(** ** Table mode *)

Variable MapToUpper : string → string.
Variable FormatFloat : float64 → string.

(** [text.Align] and [table.ColumnConfig] of go-pretty, and what
    [printPrettyTable] hands to the table writer before [t.Render()]. *)
Inductive Align :=
  | AlignDefault | AlignLeft | AlignCenter | AlignJustify | AlignRight.

Record ColumnConfig := { Number : nat; Align_ : Align }.

Record TableWriter := {
  header : list string;
  tableRows : list (list string);
  columnConfigs : list ColumnConfig
}.

(** [for i, val := range sampleRow { if isNumeric(val) { ... } }] *)
Fixpoint rightAligned (i : nat) (sampleRow : list string)
    : list ColumnConfig :=
  match sampleRow with
  | [] => []
  | val :: rest =>
    if isNumeric val then
      {| Number := i + 1; Align_ := AlignRight |} :: rightAligned (S i) rest
    else rightAligned (S i) rest
  end.

(** [cols] is [rows.Columns()] and [rows] the values the successive
    [rows.Scan] store into [vals]. *)
Definition printPrettyTable (cols : list string) (rows : list (list Value))
    : TableWriter :=
  let format := fmap (formatValue MapToUpper FormatFloat) in
  (* Scan one row to guess column types. *)
  let sampleRow := match rows with [] => [] | vals :: _ => format vals end in
  {| header := cols;
     (* Continue with the rest of the rows. *)
     tableRows := format <$> rows;
     (* Determine right-aligned columns (numeric heuristics). *)
     columnConfigs := rightAligned 0 sampleRow |}.

(** The alignment the writer is configured with for column [number]
    (counted from 1). *)
Definition configuredAlign (t : TableWriter) (number : nat) : Align :=
  match filter (λ c, Number c = number) (columnConfigs t) with
  | c :: _ => Align_ c
  | [] => AlignDefault
  end.

End Sscanf.

(** ** JSON mode *)

(** [for _, r := range s]: the runes of [s]. *)
Fixpoint isPrintableFrom (skip : nat) (s : list ascii) : bool :=
  match s with
  | [] => true
  | _ :: t =>
    match skip with
    | S k => isPrintableFrom k t
    | O =>
      let '(r, size) := DecodeRuneInString s in
      if (r <? 32) || (126 <? r) then false else isPrintableFrom (size - 1) t
    end
  end.

Definition isPrintable (s : string) : bool := isPrintableFrom 0 (bytes_of s).

(** The [switch] of [printJSON] on one cell: the value stored in
    [row[col]]. *)
Definition jsonCell (raw : Value) : Value :=
  match raw with
  | VBytes v =>
    (* Try to convert to string if printable, otherwise hex. *)
    let str := v in
    if isPrintable str then VString str
    else VString ("\x" +:+ EncodeToString v)
  | _ => raw
  end.

(** One turn of [for rows.Next()]: the map of the row, filled column by
    column; a column name met again replaces the earlier cell. *)
Fixpoint jsonRow (cols : list string) (vals : list Value)
    (row : gmap string Value) : gmap string Value :=
  match cols, vals with
  | col :: cols, raw :: vals => jsonRow cols vals (<[col := jsonCell raw]> row)
  | _, _ => row
  end.

(** [allRows], which [printJSON] passes to the encoder. *)
Definition printJSON (cols : list string) (rows : list (list Value))
    : list (gmap string Value) :=
  (λ vals, jsonRow cols vals ∅) <$> rows.

(** ** The completion engine *)

(** [prompt.Suggest] *)
Record Suggest := { Text : string; Description : string }.

Section Completion.

(** The engine and the libraries, as far as completion uses them:
    [dbQuery sql] is what [db.Query(sql)] returns, [None] for an error and
    the rows otherwise; [scanName] is the string [rows.Scan] leaves in
    [name] for a row of the table list, [scanColumn] the same for a row of
    [PRAGMA table_info]; [FindStringSubmatch] is the method of the compiled
    pattern. *)
Variable dbQuery : string → option (list (list Value)).
Variable scanName : list Value → string.
Variable scanColumn : list Value → string.
Variable FindStringSubmatch : string → string → option (list string).
Variable MapToUpper : string → string.

Definition getTableSuggestions : list Suggest :=
  match dbQuery ("SELECT name FROM sqlite_master" +:+ nl +:+ tab +:+ tab +:+
                 "             WHERE type='table' AND name NOT LIKE 'sqlite_%'") with
  | None => []
  | Some rows =>
    (λ row, {| Text := scanName row; Description := "table" |}) <$> rows
  end.

Definition getColumnSuggestions (table : string) : list Suggest :=
  match dbQuery ("PRAGMA table_info(" +:+ table +:+ ")") with
  | None => []
  | Some rows =>
    (λ row, {| Text := scanColumn row; Description := "column" |}) <$> rows
  end.

(** [prompt.FilterHasPrefix(completions, sub, true)] of go-prompt. *)
Definition FilterHasPrefix (completions : list Suggest) (sub : string)
    : list Suggest :=
  if decide (sub = "") then completions
  else
    let sub := ToUpper MapToUpper sub in
    filter (λ c, HasPrefix (ToUpper MapToUpper (Text c)) sub = true)
           completions.

(** The two kinds of handler, with the indices of the groups they read.
    [FindStringSubmatch] returns the whole match and one entry per group,
    so [m[1]] and [m[2]] are in range for the patterns of [rules]. *)
Inductive handler :=
  | suggestTables (prefixIdx : nat)
  | suggestColumns (tableIdx colPrefixIdx : nat).

Definition handle (h : handler) (m : list string) : list Suggest :=
  match h with
  | suggestTables prefixIdx =>
    FilterHasPrefix getTableSuggestions (m !!! prefixIdx)
  | suggestColumns tableIdx colPrefixIdx =>
    FilterHasPrefix (getColumnSuggestions (m !!! tableIdx))
                    (m !!! colPrefixIdx)
  end.

Definition rules : list (string * handler) :=
  [ (* .schema [table] *)
    ("(?i)^\.schema\s+(\w*)$", suggestTables 1);
    (* \d [table] *)
    ("(?i)^\\d\s+(\w+)$", suggestTables 1);
    (* table.column *)
    ("(?i)(\w+)\.(\w*)$", suggestColumns 1 2);
    (* SELECT ... FROM <table> *)
    ("(?i)\bSELECT\b.*\bFROM\s+(\w*)$", suggestTables 1);
    (* INSERT INTO <table> *)
    ("(?i)\bINSERT\s+INTO\s+(\w*)$", suggestTables 1);
    (* UPDATE <table> SET ... *)
    ("(?i)^UPDATE(?:\s+OR\s+(?:ROLLBACK|ABORT|REPLACE|FAIL|IGNORE))?\s+(\w+)\s+SET\s+(?:[^=]+=\s*[^,]+,\s*)*(\w*)$",
     suggestColumns 1 2);
    (* UPDATE <table> *)
    ("(?i)\bUPDATE\s+(\w*)$", suggestTables 1);
    (* FROM or JOIN <table> *)
    ("(?i)\b(?:FROM|JOIN)\s+(\w*)$", suggestTables 1) ].

(** [for _, r := range rules]: the first rule whose pattern matches
    answers. *)
Fixpoint firstMatch (rs : list (string * handler)) (text : string)
    : list Suggest :=
  match rs with
  | [] => []
  | (pattern, h) :: rest =>
    match FindStringSubmatch pattern text with
    | Some m => handle h m
    | None => firstMatch rest text
    end
  end.

(** [text] is [d.TextBeforeCursor()]. *)
Definition completer (text : string) : list Suggest := firstMatch rules text.

End Completion.

(** ** The notions the properties are stated with *)

(** The positions that survive load-time deduplication, in the words of
    the design: [i] holds a non-blank entry and no more recent entry has
    the same trimmed text. *)
Definition isLatest (lines : list string) (i : nat) : Prop :=
  ∃ e, lines !! i = Some e ∧ TrimSpace e ≠ "" ∧
       ∀ j e', (i < j)%nat → lines !! j = Some e' → TrimSpace e' ≠ TrimSpace e.

(** The two mode flags are not both on. *)
Definition exclusive (s : Session) : Prop :=
  ¬ (expandedMode s = true ∧ jsonMode s = true).

(** The trimmed texts of a log, as a set. *)
Definition distinctTrimmed (log : list string) : gset string :=
  list_to_set (TrimSpace <$> log).

(** An entry that the history file can hold: none of its lines is the
    delimiter, ends with a carriage return or overflows the buffer of the
    scanner. *)
Definition storableLine (line : string) : bool :=
  bool_decide (line ≠ customHistoryDelimiter) &&
  bool_decide (dropCR line = line) && fitsBuffer line.

Definition storable (entry : string) : bool :=
  forallb storableLine (splitLF entry).

(** An entry without its final line feed, if it has one. *)
Definition chomp (entry : string) : string := TrimSuffix entry nl.

(** The lines [saveHistory] writes for a log, and the block [loadBlocks]
    flushes into the log. *)
Definition savedLines (log : list string) : list string :=
  concat ((λ entry, customHistoryDelimiter :: splitLF (chomp entry)) <$> log).

Definition flushBlock (block : list string) : list string :=
  match block with
  | [] => []
  | _ => [Join block nl]
  end.

(** A history file that [saveHistory] can append to and [loadHistory] read
    to the end: it is missing, or it is empty or ends with a line feed, and
    none of its lines overflows the buffer of the scanner. *)
Definition appendable (file : option string) : bool :=
  match file with
  | None => true
  | Some data =>
    (bool_decide (data = "") || HasSuffix data nl) &&
    forallb fitsBuffer (splitLF data)
  end.

(** The blocks of a history file, before deduplication. *)
Definition entriesOf (file : option string) : list string :=
  match file with
  | None => []
  | Some data => loadBlocks (scanLines data) [] []
  end.

(** What [saveHistory] appends for a log. *)
Definition written (log : list string) : string :=
  foldr (λ entry written, historyBlock entry +:+ written) "" log.

(** The log of the next session: [historyLines] saved to [file] at the
    end of [main], and the file loaded at the next start. *)
Definition reloaded (file : option string) (historyLines : list string)
    : list string :=
  loadHistory (saveHistory false file historyLines) [].

(** What the map [seen] of [dedupHistory] holds when the indices [n],
    [n+1], ... have been visited. *)
Definition seenUpTo (lines : list string) (n : nat)
    (seen : gmap string nat) : Prop :=
  (∀ t j, seen !! t = Some j → (n ≤ j)%nat ∧ isLatest lines j ∧
          ∃ e, lines !! j = Some e ∧ TrimSpace e = t) ∧
  (∀ k e, (n ≤ k)%nat → lines !! k = Some e → TrimSpace e ≠ "" →
          is_Some (seen !! TrimSpace e)).

(** A printable ASCII byte: code points 32 to 126. *)
Definition printableByte (c : ascii) : bool :=
  (32 <=? byte c) && (byte c <=? 126).

(** The upper-case hexadecimal encoding of a byte string. *)
Definition upperHexDigit (i : N) : ascii :=
  default "0"%char (String.get (N.to_nat i) "0123456789ABCDEF").

Fixpoint upperHex (src : string) : string :=
  match src with
  | "" => ""
  | String c rest =>
    String (upperHexDigit (N.shiftr (byte c) 4))
           (String (upperHexDigit (N.land (byte c) 0x0F)) (upperHex rest))
  end.

(** Decimal digits, and the number a string of digits denotes. *)
Definition isDigit (c : ascii) : bool := (48 <=? byte c) && (byte c <=? 57).

Fixpoint decimalValueFrom (a : N) (s : string) : N :=
  match s with
  | "" => a
  | String c rest => decimalValueFrom (10 * a + (byte c - 48)) rest
  end.

Definition decimalValue (s : string) : N := decimalValueFrom 0 s.

Fixpoint allDigits (s : string) : bool :=
  match s with
  | "" => true
  | String c rest => isDigit c && allDigits rest
  end.

(** The first rule whose pattern matches the text before the cursor, with
    the groups of the match. *)
Fixpoint matchingRule (FindStringSubmatch : string → string → option (list string))
    (rs : list (string * handler)) (text : string)
    : option (handler * list string) :=
  match rs with
  | [] => None
  | (pattern, h) :: rest =>
    match FindStringSubmatch pattern text with
    | Some m => Some (h, m)
    | None => matchingRule FindStringSubmatch rest text
    end
  end.

(** ** Further definitions *)

Local Open Scope nat_scope.

(** *** The lines of a history file *)

(** Whether [s] has a line feed. *)
Fixpoint hasLF (s : string) : bool :=
  match s with
  | "" => false
  | String c rest => bool_decide (c = LF) || hasLF rest
  end.

(** An entry read from a file: no line of it is the delimiter, has a line
    feed inside or overflows the buffer. *)
Definition readable (entry : string) : Prop :=
  Forall (λ l, l ≠ customHistoryDelimiter ∧ fitsBuffer l = true)
         (splitLF entry).

(** *** The prompt loop and main *)

(** [p.Run()]: [executor] is called on each line entered, in turn, until
    the end of the input (CTRL+D), when [Run] returns; [None] when
    [executor] ends the process with [os.Exit]. *)
Fixpoint promptRun (s : Session) (inputs : list string) : option Session :=
  match inputs with
  | [] => Some s
  | input :: rest =>
    match executor s input with
    | Exit => None
    | Continue s' _ => promptRun s' rest
    end
  end.

(** [main] once the database is open: [loadHistory], the prompt loop, and
    [saveHistory] when the loop returns.  The result is the history file
    when the process has ended. *)
Definition main (openFails : bool) (file : option string)
    (inputs : list string) : option string :=
  match promptRun (startup file) inputs with
  | None => file
  | Some s => saveHistory openFails file (historyLines s)
  end.

(** The lines a session records: the lines entered, trimmed, the blank
    ones left out. *)
Definition recorded (inputs : list string) : list string :=
  filter (λ q, q ≠ "") (TrimSpace <$> inputs).

(** *** Hexadecimal digits read back *)

(** The value of a hexadecimal digit, and the bytes a string of pairs of
    digits denotes: what [hex.DecodeString] computes on well-formed
    input. *)
Definition hexValue (c : ascii) : N :=
  let b := byte c in
  if (48 <=? b)%N && (b <=? 57)%N then (b - 48)%N
  else if (65 <=? b)%N && (b <=? 70)%N then (b - 55)%N
  else if (97 <=? b)%N && (b <=? 102)%N then (b - 87)%N
  else 0%N.

Fixpoint decodeHex (s : string) : string :=
  match s with
  | String h (String l rest) =>
    String (ascii_of_N (16 * hexValue h + hexValue l)) (decodeHex rest)
  | _ => ""
  end.

(** *** The end of a number *)

(** The bytes that carry on a decimal number in [floatToken]. *)
Definition numberBytes : string := "0123456789_.eEpPxX".

(** [t] cannot carry on a number that ends before it. *)
Definition endsNumber (t : string) : bool :=
  match t with
  | "" => true
  | String c _ => negb (indexByte numberBytes c)
  end.

(** *** Expanded mode *)

(** [utf8.RuneCountInString]: the runes are counted as
    [DecodeRuneInString] decodes them, a byte that starts no valid
    encoding being one rune; [skip] is as in [trimLeftFrom]. *)
Fixpoint runeCountFrom (skip : nat) (s : list ascii) : nat :=
  match s with
  | [] => 0
  | _ :: t =>
    match skip with
    | S k => runeCountFrom k t
    | O =>
      let '(_, size) := DecodeRuneInString s in
      S (runeCountFrom (size - 1) t)
    end
  end.

Definition RuneCountInString (s : string) : nat :=
  runeCountFrom 0 (bytes_of s).

(** [strings.Repeat]. *)
Fixpoint Repeat (s : string) (count : nat) : string :=
  match count with
  | O => ""
  | S k => s +:+ Repeat s k
  end.

(** [fmt.Sprintf("%-*s", wid, s)]: [padString] of package [fmt] writes [s]
    and then [wid - utf8.RuneCountInString(s)] spaces, none when that is
    not positive. *)
Definition padString (wid : nat) (s : string) : string :=
  s +:+ Repeat " " (wid - RuneCountInString s).

(** [fmt.Sprintf("%*d", wid, n)] for [n >= 0] and [wid >= 0]: the digits,
    with spaces in front up to [wid] characters. *)
Definition padInt (wid : nat) (n : N) : string :=
  let digits := FormatUint n in
  Repeat " " (wid - String.length digits) +:+ digits.

(** [for _, col := range cols { if len(col) > maxKeyLen { ... } }] *)
Definition maxKeyLen (cols : list string) : nat :=
  foldl (λ m col, if m <? String.length col then String.length col else m)
        0 cols.

Section Expanded.

Variable MapToUpper : string → string.
Variable FormatFloat : float64 → string.

(** [int(math.Log10(float64(n)))] for [n >= 1], computed in floating
    point by the Go library: a parameter. *)
Variable Log10 : nat → nat.

(** The first loop: the rows are formatted into memory until [rows.Scan]
    fails; a row is [inl] of its values or [inr] of the text of the
    error. *)
Fixpoint scanRows (rows : list (list Value + string))
    (allData : list (list string)) : list (list string) + string :=
  match rows with
  | [] => inl allData
  | inr err :: _ => inr err
  | inl vals :: rest =>
    scanRows rest (allData ++ [formatValue MapToUpper FormatFloat <$> vals])
  end.

(** [fmt.Printf("%-*s | %s\n", maxKeyLen, col, row[j])] *)
Definition fieldLine (width : nat) (col val : string) : string :=
  padString width col +:+ " | " +:+ val +:+ nl.

(** One turn of [for i, row := range allData]: what it prints, one text
    for each call of a print function. *)
Definition printRecord (digitCount width : nat) (cols : list string)
    (i : nat) (row : list string) : list string :=
  ("-[ RECORD " +:+ padInt digitCount (N.of_nat (i + 1)) +:+ " ]" +:+
   Repeat "-" 24 +:+ nl)
  :: imap (λ j col, fieldLine width col (row !!! j)) cols
  ++ [nl].

(** The result ([hasRows] and the error, if any) and what is printed. *)
Definition printExpanded (cols : list string)
    (rows : list (list Value + string))
    : (bool * option string) * list string :=
  (* Scan rows into memory to determine max key length. *)
  match scanRows rows [] with
  | inr err => ((false, Some err), ["Failed to scan row: " +:+ err +:+ nl])
  | inl allData =>
    if length allData =? 0 then ((false, None), []) else
    (* Find max key width. *)
    let width := maxKeyLen cols in
    (* Calculate the max digits to use for the record number. *)
    let digitCount := Log10 (length allData) + 1 in
    (* Print all rows. *)
    ((true, None),
     concat (imap (printRecord digitCount width cols) allData))
  end.

End Expanded.

Local Close Scope nat_scope.

(** * Part II: properties *)

Local Open Scope nat_scope.

(** ** The string library on examples *)

Example TrimSpace_ascii :
  TrimSpace (String " " (String "009" ("  select 1 ; " +:+ nl))) = "select 1 ;".
Proof. vm_compute. reflexivity. Qed.

(** U+00A0 is [C2 A0] and U+2003 is [E2 80 83] in UTF-8. *)
Example TrimSpace_unicode :
  TrimSpace (String "194" (String "160" ("x" +:+
             String "226" (String "128" (String "131" ""))))) = "x".
Proof. vm_compute. reflexivity. Qed.

(** A lone continuation byte is not white space. *)
Example TrimSpace_invalid :
  TrimSpace (String "160" " a") = String "160" " a".
Proof. vm_compute. reflexivity. Qed.

(** ** Sorted index lists *)

Lemma StronglySorted_lt_NoDup (l : list nat) : StronglySorted lt l → NoDup l.
Proof.
  induction 1 as [|x l Hl IH Hx]; constructor; [|done].
  intros Hin. rewrite Forall_forall in Hx. specialize (Hx _ Hin). lia.
Qed.

Lemma StronglySorted_le_lt (l : list nat) :
  StronglySorted le l → NoDup l → StronglySorted lt l.
Proof.
  induction 1 as [|x l Hl IH Hx]; intros Hnd; [constructor|].
  apply NoDup_cons in Hnd as [Hx' Hnd].
  constructor; [by apply IH|].
  rewrite Forall_forall in Hx |- *. intros y Hy.
  specialize (Hx _ Hy). assert (x ≠ y) by (intros ->; done). lia.
Qed.

Lemma sorted_lt_unique (l1 l2 : list nat) :
  StronglySorted lt l1 → StronglySorted lt l2 →
  (∀ i, i ∈ l1 ↔ i ∈ l2) → l1 = l2.
Proof.
  intros H1 H2 Hel.
  apply (StronglySorted_unique_strong lt); [intros; lia|done|done|].
  apply NoDup_Permutation; auto using StronglySorted_lt_NoDup.
Qed.

Lemma sort_Ints_sorted (a : list nat) :
  NoDup a → StronglySorted lt (sort_Ints a).
Proof.
  intros Hnd. apply StronglySorted_le_lt.
  - apply (StronglySorted_merge_sort le).
  - unfold sort_Ints. by rewrite merge_sort_Permutation.
Qed.

Lemma sort_Ints_elem_of (a : list nat) i : i ∈ sort_Ints a ↔ i ∈ a.
Proof. unfold sort_Ints. by rewrite merge_sort_Permutation. Qed.

(** Go ranges over the map in any order: the sorted indices are the same
    for every order of collection. *)
Lemma sort_Ints_order_irrelevant (a b : list nat) :
  a ≡ₚ b → sort_Ints a = sort_Ints b.
Proof.
  intros Hab. apply (StronglySorted_unique le).
  - apply (StronglySorted_merge_sort le).
  - apply (StronglySorted_merge_sort le).
  - unfold sort_Ints. by rewrite !merge_sort_Permutation.
Qed.

(** ** The backward scan of [dedupHistory] *)

Section scan.
Variable lines : list string.

Lemma seenUpTo_empty : seenUpTo lines (length lines) ∅.
Proof.
  split.
  - intros t j. by rewrite lookup_empty.
  - intros k e Hk Hlk. apply lookup_lt_Some in Hlk. lia.
Qed.

Lemma recordSeen_step i seen :
  i < length lines → seenUpTo lines (S i) seen →
  seenUpTo lines i (recordSeen lines i seen).
Proof.
  intros Hi [Hsound Hcompl]. unfold recordSeen.
  destruct (lookup_lt_is_Some_2 lines i Hi) as [l Hl]. rewrite Hl.
  assert (Hstep : ∀ k, i ≤ k → k = i ∨ S i ≤ k) by lia.
  destruct (decide (TrimSpace l = "")) as [Hblank|Hnb].
  { split.
    - intros t j Hj. destruct (Hsound t j Hj) as (? & ? & ?). split; [lia|done].
    - intros k e Hk Hlk Hne. destruct (Hstep k Hk) as [->|Hk']; [|eauto].
      congruence. }
  destruct (seen !! TrimSpace l) as [j0|] eqn:Hseen.
  { split.
    - intros t j Hj. destruct (Hsound t j Hj) as (? & ? & ?). split; [lia|done].
    - intros k e Hk Hlk Hne. destruct (Hstep k Hk) as [->|Hk']; [|eauto].
      assert (e = l) as -> by congruence. by rewrite Hseen. }
  split.
  - intros t j. destruct (decide (TrimSpace l = t)) as [<-|Hne].
    + rewrite lookup_insert_eq. intros [= <-]. split; [lia|]. split; [|eauto].
      exists l. split; [done|]. split; [done|].
      intros j e' Hj Hlj Heq.
      destruct (Hcompl j e' ltac:(lia) Hlj ltac:(congruence)) as [x Hx].
      rewrite Heq, Hseen in Hx. done.
    + rewrite lookup_insert_ne by done. intros Hj.
      destruct (Hsound t j Hj) as (? & ? & ?). split; [lia|done].
  - intros k e Hk Hlk Hne.
    destruct (decide (TrimSpace l = TrimSpace e)) as [<-|Hne'].
    + rewrite lookup_insert_eq. eauto.
    + rewrite lookup_insert_ne by done.
      destruct (Hstep k Hk) as [->|Hk']; [congruence|eauto].
Qed.

Lemma scanBackward_seenUpTo n seen :
  n ≤ length lines → seenUpTo lines n seen →
  seenUpTo lines 0 (scanBackward lines n seen).
Proof.
  revert seen. induction n as [|i IH]; intros seen Hn Hinv; [done|].
  simpl. apply IH; [lia|]. apply recordSeen_step; [lia|done].
Qed.

Lemma isLatest_inj i j e e' :
  isLatest lines i → isLatest lines j →
  lines !! i = Some e → lines !! j = Some e' →
  TrimSpace e = TrimSpace e' → i = j.
Proof.
  intros (x & Hx & _ & Hi) (y & Hy & _ & Hj) Hle Hle' Heq.
  assert (x = e) as -> by congruence. assert (y = e') as -> by congruence.
  destruct (Nat.lt_trichotomy i j) as [Hlt|[->|Hlt]]; [|done|].
  - by destruct (Hi j e' Hlt Hle').
  - by destruct (Hj i e Hlt Hle).
Qed.

Lemma scanBackward_lookup t j :
  scanBackward lines (length lines) ∅ !! t = Some j ↔
  isLatest lines j ∧ ∃ e, lines !! j = Some e ∧ TrimSpace e = t.
Proof.
  destruct (scanBackward_seenUpTo (length lines) ∅ ltac:(lia) seenUpTo_empty)
    as [Hsound Hcompl].
  split.
  - intros Hj. by destruct (Hsound t j Hj) as (_ & ? & ?).
  - intros [Hlat (e & He & <-)].
    assert (Hnb : TrimSpace e ≠ "").
    { destruct Hlat as (x & Hx & ? & _). congruence. }
    destruct (Hcompl j e ltac:(lia) He Hnb) as [j' Hj']. rewrite Hj'. f_equal.
    destruct (Hsound _ _ Hj') as (_ & Hlat' & e' & He' & Heq).
    by eapply isLatest_inj.
Qed.

Lemma seenIndices_elem_of j :
  j ∈ seenIndices (scanBackward lines (length lines) ∅) ↔ isLatest lines j.
Proof.
  unfold seenIndices. rewrite list_elem_of_fmap. split.
  - intros ([t j'] & -> & Hin). apply elem_of_map_to_list in Hin.
    by apply scanBackward_lookup in Hin as [? _].
  - intros Hlat. pose proof Hlat as (e & He & _).
    exists (TrimSpace e, j). split; [done|].
    apply elem_of_map_to_list, scanBackward_lookup. eauto.
Qed.

Lemma seenIndices_NoDup :
  NoDup (seenIndices (scanBackward lines (length lines) ∅)).
Proof.
  unfold seenIndices. apply NoDup_fmap_2_strong; [|apply NoDup_map_to_list].
  intros [t j] [t' j'] Hin Hin' Heq. simpl in Heq. subst j'.
  apply elem_of_map_to_list, scanBackward_lookup in Hin as [_ (e & He & <-)].
  apply elem_of_map_to_list, scanBackward_lookup in Hin' as [_ (e' & He' & <-)].
  congruence.
Qed.

(** The indices [dedupHistory] rebuilds the log from: strictly ascending,
    and exactly the positions of the latest occurrences. *)
Lemma dedupHistory_indices :
  ∃ idxs : list nat,
    StronglySorted lt idxs ∧ (∀ i, i ∈ idxs ↔ isLatest lines i) ∧
    dedupHistory lines = (λ idx, lines !!! idx) <$> idxs.
Proof.
  exists (sort_Ints (seenIndices (scanBackward lines (length lines) ∅))).
  split; [|split; [|done]].
  - apply sort_Ints_sorted, seenIndices_NoDup.
  - intros i. by rewrite sort_Ints_elem_of, seenIndices_elem_of.
Qed.

End scan.

(** ** What survives load-time deduplication *)

Lemma isLatest_lookup_total lines i :
  isLatest lines i →
  lines !! i = Some (lines !!! i) ∧ TrimSpace (lines !!! i) ≠ "".
Proof.
  intros (e & He & Hnb & _).
  by rewrite (list_lookup_total_correct _ _ _ He).
Qed.

Lemma dedupHistory_elem_of lines e :
  e ∈ dedupHistory lines ↔ ∃ i, isLatest lines i ∧ lines !! i = Some e.
Proof.
  destruct (dedupHistory_indices lines) as (idxs & _ & Hmem & ->).
  rewrite list_elem_of_fmap. split.
  - intros (i & -> & Hi). apply Hmem in Hi. exists i. split; [done|].
    by apply isLatest_lookup_total.
  - intros (i & Hlat & He). exists i. split; [|by apply Hmem].
    by rewrite (list_lookup_total_correct _ _ _ He).
Qed.

Lemma dedupHistory_NoDup_trimmed lines :
  NoDup (TrimSpace <$> dedupHistory lines).
Proof.
  destruct (dedupHistory_indices lines) as (idxs & Hsorted & Hmem & ->).
  rewrite <- list_fmap_compose.
  apply NoDup_fmap_2_strong; [|by apply StronglySorted_lt_NoDup].
  intros i j Hi Hj Heq. simpl in Heq.
  apply Hmem in Hi, Hj.
  eapply isLatest_inj; eauto; by apply isLatest_lookup_total.
Qed.

Lemma dedupHistory_nonblank lines :
  Forall (λ e, TrimSpace e ≠ "") (dedupHistory lines).
Proof.
  apply Forall_forall. intros e (i & Hlat & He)%dedupHistory_elem_of.
  destruct Hlat as (x & Hx & ? & _). congruence.
Qed.

(** Among the positions holding one trimmed text there is a latest one. *)
Lemma latest_occurrence_exists lines k e :
  lines !! k = Some e → TrimSpace e ≠ "" →
  ∃ j e', isLatest lines j ∧ lines !! j = Some e' ∧
          TrimSpace e' = TrimSpace e.
Proof.
  intros He Hnb.
  destruct (scanBackward_seenUpTo lines (length lines) ∅ ltac:(lia)
              (seenUpTo_empty lines)) as [Hsound Hcompl].
  destruct (Hcompl k e ltac:(lia) He Hnb) as [j Hj].
  destruct (Hsound _ _ Hj) as (_ & Hlat & e' & He' & Heq). eauto.
Qed.

Lemma StronglySorted_lt_seq a n : StronglySorted lt (seq a n).
Proof.
  revert a. induction n as [|n IH]; intros a; simpl; constructor; [done|].
  apply Forall_forall. intros x Hx%elem_of_seq. lia.
Qed.

Lemma lookup_total_seq (l : list string) :
  (λ idx, l !!! idx) <$> seq 0 (length l) = l.
Proof.
  apply list_eq. intros i. rewrite list_lookup_fmap.
  destruct (l !! i) as [e|] eqn:He.
  - rewrite lookup_seq_lt by (by eapply lookup_lt_Some). simpl.
    by rewrite (list_lookup_total_correct _ _ _ He).
  - rewrite lookup_seq_ge; [done|]. by apply lookup_ge_None.
Qed.

(** A log without blank entries and without two entries of the same
    trimmed text is left as it is. *)
Lemma dedupHistory_fixpoint lines :
  NoDup (TrimSpace <$> lines) → Forall (λ e, TrimSpace e ≠ "") lines →
  dedupHistory lines = lines.
Proof.
  intros Hnd Hnb.
  destruct (dedupHistory_indices lines) as (idxs & Hsorted & Hmem & ->).
  etrans; [|apply lookup_total_seq]. f_equal.
  apply sorted_lt_unique; [done|apply StronglySorted_lt_seq|].
  intros i. rewrite Hmem, elem_of_seq. split.
  - intros (e & He%lookup_lt_Some & _). lia.
  - intros [_ Hi]. simpl in Hi.
    destruct (lookup_lt_is_Some_2 lines i Hi) as [e He].
    exists e. split; [done|]. split.
    + rewrite Forall_forall in Hnb. apply Hnb. by eapply list_elem_of_lookup_2.
    + intros j e' Hij Hj Heq.
      rewrite NoDup_alt in Hnd.
      assert (i = j); [|lia].
      apply (Hnd i j (TrimSpace e)); rewrite list_lookup_fmap.
      * by rewrite He.
      * by rewrite Hj; simpl; rewrite Heq.
Qed.

(** C1.  Load-time deduplication keeps, for each distinct trimmed entry
    text, exactly its most recent occurrence, discards the entries that
    trim to the empty string, and orders the survivors by ascending original
    position of the kept occurrence.  With an entry X at positions 1 and
    5, one X survives, at the rank of slot 5 among the survivors. *)
Theorem dedupHistory_keeps_latest_in_slot_order :
  (∀ lines : list string,
     ∃ idxs : list nat,
       StronglySorted lt idxs ∧
       (∀ i, i ∈ idxs ↔
          ∃ e, lines !! i = Some e ∧ TrimSpace e ≠ "" ∧
               ∀ j e', i < j → lines !! j = Some e' →
                       TrimSpace e' ≠ TrimSpace e) ∧
       dedupHistory lines = (λ idx, lines !!! idx) <$> idxs) ∧
  dedupHistory ["X"; "a"; "b"; "c"; "X"; "d"] = ["a"; "b"; "c"; "X"; "d"].
Proof.
  split.
  - intros lines. apply dedupHistory_indices.
  - vm_compute. reflexivity.
Qed.

(** C7.  Load-time deduplication is idempotent. *)
Theorem dedupHistory_idempotent (lines : list string) :
  dedupHistory (dedupHistory lines) = dedupHistory lines.
Proof.
  apply dedupHistory_fixpoint.
  - apply dedupHistory_NoDup_trimmed.
  - apply dedupHistory_nonblank.
Qed.

(** C8.  After load-time deduplication the trimmed texts of the surviving
    entries are pairwise distinct, and every trimmed non-blank text of the
    input is still the trimmed text of a surviving entry. *)
Theorem dedupHistory_unique_and_complete (lines : list string) :
  NoDup (TrimSpace <$> dedupHistory lines) ∧
  (∀ e, e ∈ lines → TrimSpace e ≠ "" →
        ∃ e', e' ∈ dedupHistory lines ∧ TrimSpace e' = TrimSpace e).
Proof.
  split; [apply dedupHistory_NoDup_trimmed|].
  intros e [k He]%list_elem_of_lookup_1 Hnb.
  destruct (latest_occurrence_exists lines k e He Hnb) as (j & e' & ? & ? & ?).
  exists e'. split; [|done]. apply dedupHistory_elem_of. eauto.
Qed.

Lemma dedupHistory_unique_and_complete_witness :
  NoDup (TrimSpace <$> dedupHistory [" a"; ""; "a "; "b"]) ∧
  ∃ e', e' ∈ dedupHistory [" a"; ""; "a "; "b"] ∧
        TrimSpace e' = TrimSpace " a".
Proof.
  destruct (dedupHistory_unique_and_complete [" a"; ""; "a "; "b"])
    as [Hnd Hall].
  split; [exact Hnd|].
  apply (Hall " a").
  - apply list_elem_of_here.
  - vm_compute. discriminate.
Defined.

(** ** Lines and blocks of the history file *)

Lemma splitLF_nonempty data : splitLF data ≠ [].
Proof.
  destruct data as [|c rest]; simpl; [done|].
  destruct (decide (c = LF)); [done|]. by destruct (splitLF rest).
Qed.

Lemma splitLF_app a b :
  splitLF (a +:+ String LF b) = splitLF a ++ splitLF b.
Proof.
  induction a as [|c a IH]; simpl.
  - by destruct (decide (LF = LF)).
  - change (String c a +:+ String LF b) with (String c (a +:+ String LF b)).
    simpl. rewrite IH. destruct (decide (c = LF)); [done|].
    pose proof (splitLF_nonempty a). by destruct (splitLF a).
Qed.

Lemma Join_splitLF data : Join (splitLF data) nl = data.
Proof.
  induction data as [|c rest IH]; simpl; [done|].
  destruct (decide (c = LF)) as [->|Hc].
  - pose proof (splitLF_nonempty rest).
    destruct (splitLF rest) as [|p ps] eqn:Hs; [done|].
    change (Join ("" :: p :: ps) nl) with ("" +:+ nl +:+ Join (p :: ps) nl).
    by rewrite IH.
  - pose proof (splitLF_nonempty rest).
    destruct (splitLF rest) as [|p ps] eqn:Hs; [done|].
    destruct ps as [|q ps]; simpl in *; by rewrite <- IH.
Qed.

Lemma dropFinalEmpty_snoc pieces : dropFinalEmpty (pieces ++ [""]) = pieces.
Proof.
  induction pieces as [|p ps IH]; simpl; [done|].
  rewrite IH. by destruct (ps ++ [""]) eqn:Heq; [destruct ps|].
Qed.

Lemma takeWhile_all {A} (f : A → bool) l :
  forallb f l = true → takeWhile f l = l.
Proof.
  induction l as [|x l IH]; simpl; [done|].
  intros [-> Hl]%andb_prop. by rewrite IH.
Qed.

Lemma length_app_nl c : String.length (c +:+ nl) = S (String.length c).
Proof. induction c as [|a c IH]; simpl; [done|]. by rewrite <- IH. Qed.

Lemma substring_last_nl c : substring (String.length c) 1 (c +:+ nl) = nl.
Proof. induction c as [|a c IH]; simpl; [done|]. exact IH. Qed.

Lemma substring_init_nl c : substring 0 (String.length c) (c +:+ nl) = c.
Proof. induction c as [|a c IH]; simpl; [done|]. f_equal. exact IH. Qed.

Lemma HasSuffix_app_nl c : HasSuffix (c +:+ nl) nl = true.
Proof.
  unfold HasSuffix. rewrite length_app_nl. simpl.
  rewrite Nat.sub_0_r, substring_last_nl. done.
Qed.

Lemma TrimSuffix_app_nl c : TrimSuffix (c +:+ nl) nl = c.
Proof.
  unfold TrimSuffix. rewrite HasSuffix_app_nl, length_app_nl. simpl.
  rewrite Nat.sub_0_r. apply substring_init_nl.
Qed.

Lemma HasSuffix_nl_inv e : HasSuffix e nl = true → ∃ c, e = c +:+ nl.
Proof.
  induction e as [|a e IH]; [done|].
  destruct e as [|b e].
  - unfold HasSuffix. simpl. destruct (Ascii.eqb_spec a LF) as [->|]; [|done].
    by exists "".
  - intros H. destruct IH as [c Hc].
    + revert H. unfold HasSuffix. simpl. by rewrite !Nat.sub_0_r.
    + exists (String a c). by rewrite Hc.
Qed.

Lemma string_app_assoc (a b c : string) : (a +:+ b) +:+ c = a +:+ (b +:+ c).
Proof.
  induction a as [|x a IH]; [done|].
  change (String x ((a +:+ b) +:+ c) = String x (a +:+ b +:+ c)).
  by rewrite IH.
Qed.

Lemma string_app_empty_r (a : string) : a +:+ "" = a.
Proof.
  induction a as [|x a IH]; [done|].
  change (String x (a +:+ "") = String x a). by rewrite IH.
Qed.

(** What [saveHistory] writes for an entry ends with exactly one line feed
    after the entry, a final line feed of the entry being reused. *)
Lemma historyBlock_lines entry written :
  historyBlock entry +:+ written =
  customHistoryDelimiter +:+ String LF (chomp entry +:+ String LF written).
Proof.
  unfold historyBlock. destruct (HasSuffix entry nl) eqn:Hs.
  - destruct (HasSuffix_nl_inv _ Hs) as [c ->]. unfold chomp. rewrite TrimSuffix_app_nl.
    rewrite string_app_empty_r, !string_app_assoc. done.
  - unfold chomp, TrimSuffix. rewrite Hs. by rewrite !string_app_assoc.
Qed.

Lemma splitLF_saved log :
  splitLF (foldr (λ entry written, historyBlock entry +:+ written) "" log) =
  savedLines log ++ [""].
Proof.
  induction log as [|e log IH]; [done|].
  simpl foldr. rewrite historyBlock_lines, splitLF_app, splitLF_app, IH.
  unfold savedLines. simpl. by rewrite <- app_assoc.
Qed.

Lemma storable_TrimSuffix entry :
  storable entry = true → forallb storableLine (splitLF (chomp entry)) = true.
Proof.
  unfold storable. destruct (HasSuffix entry nl) eqn:Hs.
  - destruct (HasSuffix_nl_inv _ Hs) as [c ->]. unfold chomp. rewrite TrimSuffix_app_nl.
    unfold nl. rewrite splitLF_app, forallb_app. by intros [? _]%andb_prop.
  - unfold chomp, TrimSuffix. by rewrite Hs.
Qed.

Lemma savedLines_cons e log :
  savedLines (e :: log) =
  customHistoryDelimiter :: splitLF (chomp e) ++ savedLines log.
Proof. done. Qed.

Lemma storableLine_scans lines :
  forallb storableLine lines = true →
  forallb (λ l, bool_decide (dropCR l = l) && fitsBuffer l) lines = true.
Proof.
  induction lines as [|x l IHl]; simpl; [done|].
  unfold storableLine at 1.
  intros [[[_ ->]%andb_prop ->]%andb_prop Hl]%andb_prop. by rewrite IHl.
Qed.

Lemma savedLines_storable log :
  forallb storable log = true →
  forallb (λ l, bool_decide (dropCR l = l) && fitsBuffer l) (savedLines log) = true.
Proof.
  induction log as [|e log IH]; [done|].
  intros [He Hlog]%andb_prop. rewrite savedLines_cons.
  change (forallb ?f (?x :: ?l)) with (f x && forallb f l).
  rewrite forallb_app, (IH Hlog), andb_true_r.
  by rewrite storableLine_scans by by apply storable_TrimSuffix.
Qed.

Lemma scanned_as_written lines :
  forallb (λ l, bool_decide (dropCR l = l) && fitsBuffer l) lines = true →
  dropCR <$> takeWhile fitsBuffer lines = lines.
Proof.
  induction lines as [|x l IH]; [done|].
  intros [[Hx%bool_decide_eq_true Hfit]%andb_prop Hl]%andb_prop.
  simpl. rewrite Hfit. rewrite fmap_cons. by rewrite Hx, IH.
Qed.

Lemma scanLines_saved log :
  forallb storable log = true →
  scanLines (foldr (λ entry written, historyBlock entry +:+ written) "" log) =
  savedLines log.
Proof.
  intros Hlog%savedLines_storable. unfold scanLines.
  rewrite splitLF_saved, dropFinalEmpty_snoc. by apply scanned_as_written.
Qed.

Lemma flushBlock_splitLF data : flushBlock (splitLF data) = [data].
Proof.
  pose proof (splitLF_nonempty data).
  pose proof (Join_splitLF data) as HJ.
  destruct (splitLF data); [done|]. unfold flushBlock. by rewrite HJ.
Qed.

Lemma loadBlocks_lines lines rest block hist :
  forallb storableLine lines = true →
  loadBlocks (lines ++ rest) block hist = loadBlocks rest (block ++ lines) hist.
Proof.
  revert block. induction lines as [|l lines IH]; intros block; simpl.
  - by rewrite app_nil_r.
  - intros [[[Hl%bool_decide_eq_true _]%andb_prop _]%andb_prop Hlines]%andb_prop.
    destruct (decide (l = customHistoryDelimiter)); [done|].
    rewrite IH by done. by rewrite <- app_assoc.
Qed.

Lemma loadBlocks_saved log block hist :
  forallb storable log = true →
  loadBlocks (savedLines log) block hist =
  hist ++ flushBlock block ++ (chomp <$> log).
Proof.
  revert block hist. induction log as [|e log IH]; intros block hist.
  - intros _. simpl. destruct block; by rewrite ?app_nil_r.
  - intros [He%storable_TrimSuffix Hlog]%andb_prop.
    rewrite savedLines_cons. simpl loadBlocks.
    destruct (decide (customHistoryDelimiter = customHistoryDelimiter)); [|done].
    assert (Hflush : ∀ h, loadBlocks (splitLF (chomp e) ++ savedLines log) [] h
               = h ++ chomp e :: ((chomp <$> log))).
    { intros h. rewrite loadBlocks_lines by done. rewrite IH by done.
      by rewrite app_nil_l, flushBlock_splitLF. }
    destruct block as [|b block]; rewrite Hflush; simpl; [done|].
    by rewrite <- app_assoc.
Qed.


Lemma takeWhile_app_all {A} (f : A → bool) l1 l2 :
  forallb f l1 = true → takeWhile f (l1 ++ l2) = l1 ++ takeWhile f l2.
Proof.
  induction l1 as [|x l1 IH]; [done|].
  intros [Hx Hl]%andb_prop. simpl. by rewrite Hx, IH.
Qed.

Lemma scanLines_append data log :
  appendable (Some data) = true → forallb storable log = true →
  scanLines (data +:+ written log) = scanLines data ++ savedLines log.
Proof.
  intros [Hend Hfit]%andb_prop Hlog.
  apply orb_prop in Hend as [->%bool_decide_eq_true|Hend].
  { by apply scanLines_saved. }
  destruct (HasSuffix_nl_inv _ Hend) as [c ->].
  unfold nl in Hfit. rewrite splitLF_app, forallb_app in Hfit.
  apply andb_prop in Hfit as [Hfit _].
  unfold scanLines, nl. rewrite string_app_assoc.
  change (String LF "" +:+ written log) with (String LF (written log)).
  rewrite !splitLF_app. unfold written. rewrite splitLF_saved.
  change (splitLF "") with [""].
  rewrite app_assoc, !dropFinalEmpty_snoc.
  rewrite takeWhile_app_all by done. rewrite fmap_app.
  rewrite (takeWhile_all _ _ Hfit). f_equal.
  apply scanned_as_written. by apply savedLines_storable.
Qed.

Lemma loadBlocks_delimiter lines rest block hist :
  loadBlocks (lines ++ customHistoryDelimiter :: rest) block hist =
  loadBlocks rest [] (loadBlocks lines block hist).
Proof.
  revert block hist. induction lines as [|l lines IH]; intros block hist.
  - simpl. destruct (decide (customHistoryDelimiter = customHistoryDelimiter)); [|done].
    by destruct block.
  - simpl. destruct (decide (l = customHistoryDelimiter)).
    + destruct block; apply IH.
    + apply IH.
Qed.

Lemma loadBlocks_after lines log :
  forallb storable log = true →
  loadBlocks (lines ++ savedLines log) [] [] =
  loadBlocks lines [] [] ++ (chomp <$> log).
Proof.
  intros Hlog. destruct log as [|e log].
  - unfold savedLines. simpl. by rewrite !app_nil_r.
  - rewrite savedLines_cons, loadBlocks_delimiter.
    rewrite <- (loadBlocks_saved (e :: log) [] _ Hlog).
    rewrite savedLines_cons. simpl.
    by destruct (decide (customHistoryDelimiter = customHistoryDelimiter)).
Qed.

Lemma reloaded_eq file log :
  appendable file = true → forallb storable log = true → log ≠ [] →
  reloaded file log = dedupHistory (entriesOf file ++ (chomp <$> log)).
Proof.
  intros Hfile Hlog Hne. unfold reloaded, saveHistory.
  destruct log as [|e log]; [done|]. fold (written (e :: log)).
  unfold loadHistory. f_equal. destruct file as [data|]; simpl default.
  - rewrite scanLines_append by done. by apply loadBlocks_after.
  - change ("" +:+ ?s) with s. unfold written.
    rewrite scanLines_saved by done.
    by rewrite (loadBlocks_saved _ [] [] Hlog).
Qed.

Lemma distinctTrimmed_app l1 l2 :
  distinctTrimmed (l1 ++ l2) = distinctTrimmed l1 ∪ distinctTrimmed l2.
Proof. unfold distinctTrimmed. by rewrite fmap_app, list_to_set_app_L. Qed.

Lemma loadHistory_entriesOf file :
  loadHistory file [] = dedupHistory (entriesOf file).
Proof. by destruct file. Qed.

(** ** UTF-8 decoding and white space *)

Local Open Scope N_scope.

Lemma byte_lt_256 c : byte c < 256.
Proof. unfold byte. apply N_ascii_bounded. Qed.

Lemma first_cases b :
  (b < 0x80 ∧ first b = as_) ∨
  (0x80 ≤ b ∧ (first b = xx ∨
  (0xC2 ≤ b ≤ 0xDF ∧ first b = s1) ∨
  (b = 0xE0 ∧ first b = s2) ∨
  (0xE1 ≤ b ≤ 0xEF ∧ (first b = s3 ∨ first b = s4)) ∨
  (b = 0xF0 ∧ first b = s5) ∨
  (0xF1 ≤ b ≤ 0xF4 ∧ (first b = s6 ∨ first b = s7)))).
Proof.
  unfold first.
  repeat match goal with
  | |- context [if ?c then _ else _] =>
      let H := fresh in destruct c eqn:H;
      [first [apply N.ltb_lt in H | apply N.eqb_eq in H]
      |first [apply N.ltb_ge in H | apply N.eqb_neq in H]]
  end; try (left; split; [lia|reflexivity]); right; (split; [lia|]);
  first [ by left
        | right; left; split; [lia|reflexivity]
        | right; right; left; split; [lia|reflexivity]
        | right; right; right; left; split; [lia|]; first [by left|by right]
        | right; right; right; right; left; split; [lia|reflexivity]
        | right; right; right; right; right; split; [lia|]; first [by left|by right] ].
Qed.

Ltac closed_eval t :=
  let v := eval vm_compute in t in progress change t with v.

Ltac decode_norm :=
  cbv zeta;
  repeat match goal with
  | |- context [as_ <=? ?x] => closed_eval (as_ <=? x)
  | |- context [N.testbit ?x 0] => closed_eval (N.testbit x 0)
  | |- context [N.to_nat (N.land ?x 7)] => closed_eval (N.to_nat (N.land x 7))
  | |- context [acceptRanges ?i] => closed_eval (acceptRanges i)
  end;
  cbn [lo hi length Nat.ltb Nat.leb byteAt lookup list_lookup app].

Ltac decode_cases c0 :=
  unfold DecodeRuneInString;
  destruct (first_cases (byte c0))
    as [[Hb Hf]|[Hb [Hf|[[Hr Hf]|[[Hr Hf]|[[Hr [Hf|Hf]]|[[Hr Hf]|[Hr [Hf|Hf]]]]]]]]];
  rewrite Hf; decode_norm.

Ltac split_ifs :=
  repeat match goal with
  | |- context [if ?c then _ else _] => destruct c eqn:?
  end.

Lemma decode_ascii c0 t :
  byte c0 < 0x80 → DecodeRuneInString (c0 :: t) = (byte c0, 1%nat).
Proof.
  intros Hlt. decode_cases c0; first [reflexivity|lia].
Qed.

Lemma decode_size c0 t :
  (1 ≤ (DecodeRuneInString (c0 :: t)).2 ≤ length (c0 :: t))%nat.
Proof.
  decode_cases c0; try (simpl; lia);
    destruct t as [|c1 [|c2 [|c3 t]]]; decode_norm; split_ifs; simpl; lia.
Qed.

Lemma lor_ge_pow2 k a b : 2 ^ k ≤ a → 2 ^ k ≤ N.lor a b.
Proof.
  intros Ha. assert (0 < a) by (pose proof (N.pow_nonzero 2 k); lia).
  assert (0 < N.lor a b).
  { destruct (N.eq_dec (N.lor a b) 0) as [H0%N.lor_eq_0_l|]; lia. }
  apply N.log2_le_pow2; [done|]. rewrite N.log2_lor.
  apply N.log2_le_pow2 in Ha; lia.
Qed.

Lemma shiftl_land_ge b m j k low :
  m = N.ones j → low ≤ b mod 2 ^ j → 2 ^ 7 ≤ low * 2 ^ k →
  2 ^ 7 ≤ N.shiftl (N.land b m) k.
Proof.
  intros -> Hlo Hk. rewrite N.land_ones, N.shiftl_mul_pow2. nia.
Qed.

Ltac ifs_to_props :=
  repeat match goal with
  | H : _ || _ = false |- _ => apply orb_false_elim in H as [? ?]
  | H : (_ <? _) = false |- _ => apply N.ltb_ge in H
  | H : (_ <? _) = true |- _ => apply N.ltb_lt in H
  end.

Ltac lead_ge j low k :=
  eapply (shiftl_land_ge _ _ j k low);
  [reflexivity
  |let p := eval vm_compute in (2 ^ j) in change (2 ^ j) with p;
   zify; Z.to_euclidean_division_equations; lia
  |vm_compute; discriminate].

Lemma decode_nonascii c0 t :
  0x80 ≤ byte c0 → 0x80 ≤ (DecodeRuneInString (c0 :: t)).1.
Proof.
  intros Hge. change (2 ^ 7 ≤ (DecodeRuneInString (c0 :: t)).1).
  decode_cases c0; try lia; try (vm_compute; discriminate);
    destruct t as [|c1 [|c2 [|c3 t]]]; decode_norm; split_ifs;
    try (vm_compute; discriminate); ifs_to_props; simpl fst.
  all: first
    [ solve [repeat apply lor_ge_pow2;
             first [lead_ge 5%N 2%N 6%N|lead_ge 4%N 1%N 12%N|lead_ge 3%N 1%N 18%N]]
    | solve [apply lor_ge_pow2; rewrite N.lor_comm; apply lor_ge_pow2;
             lead_ge 6%N 32%N 6%N]
    | solve [do 2 apply lor_ge_pow2; rewrite N.lor_comm; apply lor_ge_pow2;
             lead_ge 6%N 16%N 12%N] ].
Qed.

Ltac decode_LF :=
  repeat match goal with
  | |- context [byte LF <? ?x] => closed_eval (byte LF <? x)
  | |- context [?x <? byte LF] => closed_eval (x <? byte LF)
  end;
  cbn [orb].

(** A line feed after a truncated encoding does not complete it. *)
Lemma decode_snoc_LF c0 t :
  DecodeRuneInString ((c0 :: t) ++ [LF]) = DecodeRuneInString (c0 :: t) ∨
  (DecodeRuneInString ((c0 :: t) ++ [LF]) = (RuneError, 1%nat) ∧
   DecodeRuneInString (c0 :: t) = (RuneError, 1%nat)).
Proof.
  cbn [app].
  decode_cases c0; try (by left);
    destruct t as [|c1 [|c2 [|c3 t]]]; decode_norm; decode_LF;
    split_ifs; first [by left|by right].
Qed.

Local Close Scope N_scope.

Lemma IsSpace_RuneError : IsSpace RuneError = false.
Proof. reflexivity. Qed.

Lemma trimLeftFrom_snoc_LF s k :
  k ≤ length s →
  trimLeftFrom k (s ++ [LF]) = trimLeftFrom k s ++ [LF] ∨
  (trimLeftFrom k s = [] ∧ trimLeftFrom k (s ++ [LF]) = []).
Proof.
  revert k. induction s as [|c0 t IH]; intros k Hk.
  - right. assert (k = 0) as -> by (simpl in Hk; lia). done.
  - destruct k as [|k].
    + change (trimLeftFrom 0 ((c0 :: t) ++ [LF])) with
        (let '(r, size) := DecodeRuneInString ((c0 :: t) ++ [LF]) in
         if IsSpace r then trimLeftFrom (size - 1) (t ++ [LF])
         else (c0 :: t) ++ [LF]).
      change (trimLeftFrom 0 (c0 :: t)) with
        (let '(r, size) := DecodeRuneInString (c0 :: t) in
         if IsSpace r then trimLeftFrom (size - 1) t else c0 :: t).
      pose proof (decode_size c0 t) as Hsize.
      destruct (decode_snoc_LF c0 t) as [->|[-> ->]].
      * destruct (DecodeRuneInString (c0 :: t)) as [r size].
        simpl in Hsize. destruct (IsSpace r); [|by left].
        apply IH. lia.
      * rewrite IsSpace_RuneError. by left.
    + simpl. apply IH. simpl in Hk. lia.
Qed.

Lemma TrimLeftSpace_snoc_LF s :
  TrimLeftSpace (s ++ [LF]) = TrimLeftSpace s ++ [LF] ∨
  (TrimLeftSpace s = [] ∧ TrimLeftSpace (s ++ [LF]) = []).
Proof. apply trimLeftFrom_snoc_LF. lia. Qed.

(** *** The last rune *)

Lemma backToStart_le s lim start n : (backToStart s lim start n ≤ start)%Z.
Proof.
  revert start. induction n as [|n IH]; intros start; simpl; [lia|].
  destruct (start <? lim)%Z; [lia|].
  destruct (RuneStart _); [lia|]. specialize (IH (start - 1)%Z). lia.
Qed.

Lemma decodeLast_size s :
  s ≠ [] → 1 ≤ (DecodeLastRuneInString s).2 ≤ length s.
Proof.
  intros Hs. unfold DecodeLastRuneInString.
  assert (0 < length s) by (destruct s; [done|simpl; lia]).
  destruct (length s =? 0) eqn:Hz; [apply Nat.eqb_eq in Hz; lia|].
  destruct (byteAt s (length s - 1) <? RuneSelf)%N; [simpl; lia|].
  cbv zeta.
  set (start := Z.to_nat _).
  destruct (DecodeRuneInString (drop start s)) as [r size] eqn:Hd.
  destruct (negb (start + size =? length s)) eqn:Hneq; [simpl; lia|].
  apply negb_false_iff, Nat.eqb_eq in Hneq. simpl.
  assert (start < length s).
  { subst start.
    pose proof (backToStart_le s (Z.max (Z.of_nat (length s) - Z.of_nat UTFMax) 0)
                  (Z.of_nat (length s) - 2) (UTFMax - 1)).
    destruct (_ <? 0)%Z; lia. }
  destruct (drop start s) as [|c0 t] eqn:Hdrop.
  { apply (f_equal length) in Hdrop. rewrite length_drop in Hdrop.
    simpl in Hdrop. lia. }
  pose proof (decode_size c0 t) as Hsz. rewrite Hd in Hsz. simpl in Hsz. lia.
Qed.

Lemma decodeLast_snoc_LF s :
  DecodeLastRuneInString (s ++ [LF]) = (byte LF, 1).
Proof.
  unfold DecodeLastRuneInString. rewrite length_app. simpl length.
  replace (length s + 1 =? 0) with false by (symmetry; apply Nat.eqb_neq; lia).
  replace (length s + 1 - 1) with (length s + 0) by lia.
  unfold byteAt. rewrite lookup_app_r by lia.
  replace (length s + 0 - length s) with 0 by lia. done.
Qed.

Lemma lastIndexNonSpace_app s t k i :
  i ≤ length s →
  lastIndexNonSpace (s ++ t) k i = lastIndexNonSpace s k i.
Proof.
  revert i. induction k as [|k IH]; intros i Hi; simpl; [done|].
  destruct (i =? 0); [done|].
  rewrite take_app_le by done.
  destruct (DecodeLastRuneInString (take i s)) as [r size].
  destruct (negb (IsSpace r)); [done|]. apply IH. lia.
Qed.

Lemma lastIndexNonSpace_range s k i :
  i ≤ length s →
  (-1 ≤ lastIndexNonSpace s k i < Z.of_nat i)%Z ∨
  (lastIndexNonSpace s k i = -1)%Z.
Proof.
  revert i. induction k as [|k IH]; intros i Hi; simpl; [by right|].
  destruct (i =? 0) eqn:Hz; [by right|]. apply Nat.eqb_neq in Hz.
  pose proof (decodeLast_size (take i s)) as Hsz.
  rewrite length_take in Hsz.
  destruct (DecodeLastRuneInString (take i s)) as [r size]. simpl in Hsz.
  assert (take i s ≠ []).
  { intros Heq%(f_equal length). rewrite length_take in Heq. simpl in Heq. lia. }
  specialize (Hsz ltac:(done)).
  destruct (negb (IsSpace r)); [left; lia|].
  destruct (IH (i - size) ltac:(lia)) as [?|?]; [left; lia|by right].
Qed.

Lemma TrimRightSpace_snoc_LF s :
  TrimRightSpace (s ++ [LF]) = TrimRightSpace s.
Proof.
  unfold TrimRightSpace at 1. rewrite length_app. simpl length.
  replace (length s + 1) with (S (length s)) by lia.
  cbn [lastIndexNonSpace].
  replace (S (length s) =? 0) with false by done.
  replace (take (S (length s)) (s ++ [LF])) with (s ++ [LF])
    by (symmetry; apply take_ge; rewrite length_app; simpl; lia).
  rewrite decodeLast_snoc_LF.
  change (negb (IsSpace (byte LF))) with false. cbv iota.
  replace (S (length s) - 1) with (length s) by lia.
  rewrite lastIndexNonSpace_app by done.
  unfold TrimRightSpace.
  pose proof (lastIndexNonSpace_range s (length s) (length s) ltac:(done)) as Hr.
  set (i := lastIndexNonSpace s (length s) (length s)) in *.
  destruct (0 <=? i)%Z eqn:Hi.
  - apply Z.leb_le in Hi. assert (Z.to_nat i < length s) by lia.
    unfold byteAt. rewrite lookup_app_l by done.
    destruct (s !! Z.to_nat i) as [c|] eqn:Hc;
      [|apply lookup_ge_None in Hc; lia].
    destruct (RuneSelf <=? byte c)%N; cbn [andb].
    + rewrite drop_app_le by lia.
      destruct (drop (Z.to_nat i) s) as [|c0 t] eqn:Hdrop.
      { apply (f_equal length) in Hdrop. rewrite length_drop in Hdrop.
        simpl in Hdrop. lia. }
      pose proof (decode_size c0 t) as Hsz.
      assert (length (c0 :: t) = length s - Z.to_nat i) as Hlen
        by (rewrite <- Hdrop; apply length_drop).
      destruct (decode_snoc_LF c0 t) as [->|[-> Heq]].
      * destruct (DecodeRuneInString (c0 :: t)) as [r wid].
        simpl in Hsz, Hlen. apply take_app_le. lia.
      * rewrite Heq. simpl in Hlen. apply take_app_le. lia.
    + apply take_app_le. lia.
  - cbn [andb]. apply take_app_le. lia.
Qed.

Lemma bytes_of_app a b : bytes_of (a +:+ b) = bytes_of a ++ bytes_of b.
Proof.
  induction a as [|x a IH]; [done|].
  change (x :: bytes_of (a +:+ b) = x :: bytes_of a ++ bytes_of b).
  by rewrite IH.
Qed.

(** A final line feed is white space: it does not change the trimmed
    text. *)
Lemma TrimSpace_app_nl s : TrimSpace (s +:+ nl) = TrimSpace s.
Proof.
  unfold TrimSpace. rewrite bytes_of_app. change (bytes_of nl) with [LF].
  destruct (TrimLeftSpace_snoc_LF (bytes_of s)) as [->|[-> ->]]; [|done].
  by rewrite TrimRightSpace_snoc_LF.
Qed.

(** ** Saving the log and loading it again *)

Lemma TrimSpace_chomp entry : TrimSpace (chomp entry) = TrimSpace entry.
Proof.
  unfold chomp. destruct (HasSuffix entry nl) eqn:Hs.
  - destruct (HasSuffix_nl_inv _ Hs) as [c ->].
    by rewrite TrimSuffix_app_nl, TrimSpace_app_nl.
  - unfold TrimSuffix. by rewrite Hs.
Qed.

Lemma distinctTrimmed_chomp log :
  distinctTrimmed (chomp <$> log) = distinctTrimmed log.
Proof.
  unfold distinctTrimmed. f_equal. rewrite <- list_fmap_compose.
  apply list_fmap_ext. intros _ e _. apply TrimSpace_chomp.
Qed.

Lemma distinctTrimmed_dedupHistory lines :
  distinctTrimmed (dedupHistory lines) = distinctTrimmed lines ∖ {[""]}.
Proof.
  unfold distinctTrimmed. apply set_eq. intros t.
  rewrite elem_of_difference, !elem_of_list_to_set, !list_elem_of_fmap,
    not_elem_of_singleton.
  split.
  - intros (e & -> & (i & Hlat & He)%dedupHistory_elem_of). split.
    + exists e. split; [done|]. by eapply list_elem_of_lookup_2.
    + destruct Hlat as (x & Hx & ? & _). congruence.
  - intros [(e & -> & [k He]%list_elem_of_lookup_1) Hnb].
    destruct (latest_occurrence_exists lines k e He Hnb) as (j & e' & ? & ? & ?).
    exists e'. split; [done|]. apply dedupHistory_elem_of. eauto.
Qed.

Lemma dedupHistory_subseteq lines e : e ∈ dedupHistory lines → e ∈ lines.
Proof.
  intros (i & _ & He)%dedupHistory_elem_of. by eapply list_elem_of_lookup_2.
Qed.

(** C2, as the design states it, fails: an entry that is the delimiter
    line is read back as a block boundary and is lost. *)
Lemma round_trip_loses_delimiter_entry :
  ¬ (distinctTrimmed (reloaded None ["select 1;"; "---"]) =
     distinctTrimmed ["select 1;"; "---"]).
Proof.
  intros Heq.
  assert (Hin : "---" ∈ distinctTrimmed ["select 1;"; "---"]).
  { unfold distinctTrimmed. rewrite elem_of_list_to_set, list_elem_of_fmap.
    exists "---". split; [by vm_compute|].
    apply list_elem_of_further, list_elem_of_here. }
  rewrite <- Heq in Hin. unfold distinctTrimmed in Hin.
  rewrite elem_of_list_to_set in Hin.
  replace (TrimSpace <$> reloaded None ["select 1;"; "---"])
    with ["select 1;"] in Hin by (vm_compute; reflexivity).
  apply list_elem_of_singleton in Hin. discriminate.
Qed.

(** C2, amended.  Let the log of a session, the entries loaded from the
    history file followed by the lines submitted, have no line equal to
    the delimiter, no line ending with a carriage return and no line beyond
    the buffer of the scanner, and let the file be appendable.  Saved and
    loaded again, the log gives the same set of distinct trimmed non-blank
    entries, and every entry read back is an entry of the saved log, its
    line breaks kept, less a final line feed. *)
Theorem history_round_trip (file : option string) (new : list string) :
  let log := loadHistory file [] ++ new in
  appendable file = true → forallb storable log = true →
  distinctTrimmed (reloaded file log) = distinctTrimmed log ∖ {[""]} ∧
  ∀ e, e ∈ reloaded file log → ∃ e0, e0 ∈ log ∧ e = chomp e0.
Proof.
  intros log Hfile Hlog.
  destruct (decide (log = [])) as [Hnil|Hne].
  { unfold reloaded. rewrite Hnil. simpl saveHistory.
    apply app_eq_nil in Hnil as [-> _]. split; [done|].
    by intros e ?%elem_of_nil. }
  rewrite (reloaded_eq file log Hfile Hlog Hne).
  assert (Hold : distinctTrimmed (dedupHistory (entriesOf file)) ⊆ distinctTrimmed log).
  { unfold log. rewrite loadHistory_entriesOf, distinctTrimmed_app.
    apply union_subseteq_l. }
  split.
  - rewrite distinctTrimmed_dedupHistory, distinctTrimmed_app, distinctTrimmed_chomp.
    rewrite distinctTrimmed_dedupHistory in Hold.
    apply set_eq. intros t. rewrite !elem_of_difference, elem_of_union. split.
    + intros [[Ht|Ht] Hnb]; [|done]. split; [|done].
      apply Hold. by apply elem_of_difference.
    + intros [Ht Hnb]. split; [by right|done].
  - intros e (i & Hlat & He)%dedupHistory_elem_of.
    destruct (decide (i < length (entriesOf file))) as [Hi|Hi].
    + exfalso. rewrite lookup_app_l in He by done.
      destruct Hlat as (x & Hx & Hnb & Hlast).
      rewrite lookup_app_l in Hx by done.
      assert (x = e) as -> by congruence.
      destruct (latest_occurrence_exists _ _ _ He Hnb) as (j & e' & Hj & He' & Heq).
      assert (e' ∈ log) as [k Hk]%list_elem_of_lookup_1.
      { unfold log. rewrite loadHistory_entriesOf. apply elem_of_app. left.
        apply dedupHistory_elem_of. eauto. }
      apply (Hlast (length (entriesOf file) + k) (chomp e')); [lia| |].
      * rewrite lookup_app_r by lia.
        replace (length (entriesOf file) + k - length (entriesOf file)) with k by lia.
        by rewrite list_lookup_fmap, Hk.
      * by rewrite TrimSpace_chomp.
    + rewrite lookup_app_r in He by lia.
      apply list_elem_of_lookup_2, list_elem_of_fmap in He as (e0 & -> & He0).
      eauto.
Qed.

Lemma history_round_trip_witness :
  let file := Some ("---" +:+ nl +:+ "select 1;" +:+ nl) in
  let new := ["select *" +:+ nl +:+ "from t;"; " select 1;"] in
  let log := loadHistory file [] ++ new in
  distinctTrimmed (reloaded file log) = distinctTrimmed log ∖ {[""]} ∧
  ∀ e, e ∈ reloaded file log → ∃ e0, e0 ∈ log ∧ e = chomp e0.
Proof.
  intros file new log.
  apply (history_round_trip file new); vm_compute; reflexivity.
Defined.

(** ** The history store on examples *)

(** Entries 1 and 5 hold the same text: the later one is kept, in its
    slot. *)
Example dedupHistory_slots :
  dedupHistory ["select 1;"; "a"; " b"; "   "; " select 1; "; "a"; "c"]
  = [" b"; " select 1; "; "a"; "c"].
Proof. vm_compute. reflexivity. Qed.

(** A file with two blocks, the first of two lines. *)
Example loadHistory_blocks :
  loadHistory (Some ("---" +:+ nl +:+ "select *" +:+ nl +:+ "from t;" +:+ nl
                     +:+ "---" +:+ nl +:+ "\d t" +:+ nl)) []
  = ["select *" +:+ nl +:+ "from t;"; "\d t"].
Proof. vm_compute. reflexivity. Qed.

(** The scanner drops the carriage return of a line ending. *)
Example scanLines_CRLF :
  scanLines ("---" +:+ String CR nl +:+ "a" +:+ String CR nl +:+ "b")
  = ["---"; "a"; "b"].
Proof. vm_compute. reflexivity. Qed.

(** A line of 65535 bytes is scanned; at 65536 bytes the scanner stops,
    and the lines after it are not read. *)
Example scanLines_buffer :
  length (scanLines (zeros (2 ^ 16 - 1) +:+ nl +:+ "x" +:+ nl)) = 2 ∧
  scanLines ("x" +:+ nl +:+ zeros (2 ^ 16) +:+ nl +:+ "y" +:+ nl) = ["x"].
Proof. split; vm_compute; reflexivity. Qed.

(** What is not read back as it was saved: a line that is the delimiter
    splits its entry, and a carriage return before a line feed is
    dropped. *)
Example reloaded_delimiter_line :
  reloaded None ["a" +:+ nl +:+ "---" +:+ nl +:+ "b"] = ["a"; "b"].
Proof. vm_compute. reflexivity. Qed.

Example reloaded_carriage_return :
  reloaded None ["a" +:+ String CR nl +:+ "b"] = ["a" +:+ nl +:+ "b"].
Proof. vm_compute. reflexivity. Qed.

(** What [saveHistory] appends, and the session that types [exit]. *)
Example saveHistory_appends :
  saveHistory false (Some ("---" +:+ nl +:+ "a" +:+ nl)) ["a"; "b" +:+ nl]
  = Some ("---" +:+ nl +:+ "a" +:+ nl +:+ "---" +:+ nl +:+ "a" +:+ nl +:+
          "---" +:+ nl +:+ "b" +:+ nl).
Proof. vm_compute. reflexivity. Qed.

Example executor_exit :
  executor (startup None) " exit " = Exit.
Proof. vm_compute. reflexivity. Qed.

Example executor_statement :
  executor {| expandedMode := false; jsonMode := true; historyLines := [] |}
           "select 1; "
  = Continue {| expandedMode := false; jsonMode := true;
                historyLines := ["select 1;"] |}
             [Query "select 1;" JSON].
Proof. vm_compute. reflexivity. Qed.

(** ** The mode flags *)

Lemma executor_flags s input s' did :
  executor s input = Continue s' did →
  (expandedMode s' = expandedMode s ∧ jsonMode s' = jsonMode s) ∨
  (expandedMode s' = negb (expandedMode s) ∧
   jsonMode s' = if expandedMode s' then false else jsonMode s) ∨
  (jsonMode s' = negb (jsonMode s) ∧
   expandedMode s' = if jsonMode s' then false else expandedMode s).
Proof.
  unfold executor. cbv zeta.
  repeat match goal with
  | |- context [if decide ?P then _ else _] => destruct (decide P)
  | |- context [if HasPrefix ?a ?b then _ else _] => destruct (HasPrefix a b)
  | |- context [if ?a || ?b then _ else _] => destruct (a || b)
  end;
  intros Heq; try discriminate; injection Heq as <- _; simpl; auto.
Qed.

Lemma executor_exclusive s input s' did :
  exclusive s → executor s input = Continue s' did → exclusive s'.
Proof.
  unfold exclusive. intros Hs Hstep.
  destruct (executor_flags _ _ _ _ Hstep) as [[-> ->]|[[He Hj]|[Hj He]]];
    [done| |].
  - rewrite Hj. destruct (expandedMode s'); intros [? ?]; discriminate.
  - rewrite He. destruct (jsonMode s'); intros [? ?]; discriminate.
Qed.

Lemma executor_toggle_expanded s :
  executor s "\x" =
  Continue {| expandedMode := negb (expandedMode s);
              jsonMode := if negb (expandedMode s) then false else jsonMode s;
              historyLines := historyLines s ++ ["\x"] |}
           [Printf ("Expanded display is now " +:+
                    onOff (negb (expandedMode s)) +:+ nl)].
Proof. reflexivity. Qed.

Lemma executor_toggle_json s :
  executor s "\j" =
  Continue {| expandedMode := if negb (jsonMode s) then false
                              else expandedMode s;
              jsonMode := negb (jsonMode s);
              historyLines := historyLines s ++ ["\j"] |}
           [Printf ("JSON output is now " +:+
                    onOff (negb (jsonMode s)) +:+ nl)].
Proof. reflexivity. Qed.

(** C3.  The expanded flag and the JSON flag are never both on: turning
    expanded mode on while JSON mode is on turns JSON mode off, turning
    JSON mode on while expanded mode is on turns expanded mode off, and no
    sequence of submitted lines reaches a session with both flags on. *)
Theorem modes_mutually_exclusive :
  (∀ s, expandedMode s = false → jsonMode s = true →
        ∃ s' did, executor s "\x" = Continue s' did ∧
                  expandedMode s' = true ∧ jsonMode s' = false) ∧
  (∀ s, jsonMode s = false → expandedMode s = true →
        ∃ s' did, executor s "\j" = Continue s' did ∧
                  jsonMode s' = true ∧ expandedMode s' = false) ∧
  (∀ s, reachable s → ¬ (expandedMode s = true ∧ jsonMode s = true)).
Proof.
  split; [|split].
  - intros s He Hj. eexists _, _. rewrite executor_toggle_expanded.
    split; [done|]. simpl. by rewrite He.
  - intros s Hj He. eexists _, _. rewrite executor_toggle_json.
    split; [done|]. simpl. by rewrite Hj.
  - intros s Hs. induction Hs as [file|s input s' did _ IH Hstep].
    + simpl. intros [? _]. discriminate.
    + by eapply executor_exclusive.
Qed.

Lemma modes_mutually_exclusive_witness :
  let s0 := startup None in
  let s1 := {| expandedMode := false; jsonMode := true;
               historyLines := ["\j"] |} in
  let s2 := {| expandedMode := true; jsonMode := false;
               historyLines := ["\j"; "\x"] |} in
  (∃ s' did, executor s1 "\x" = Continue s' did ∧
             expandedMode s' = true ∧ jsonMode s' = false) ∧
  (∃ s' did, executor s2 "\j" = Continue s' did ∧
             jsonMode s' = true ∧ expandedMode s' = false) ∧
  ¬ (expandedMode s2 = true ∧ jsonMode s2 = true).
Proof.
  intros s0 s1 s2.
  destruct modes_mutually_exclusive as (Hx & Hj & Hreach).
  split; [|split].
  - apply Hx; reflexivity.
  - apply Hj; reflexivity.
  - apply Hreach.
    apply (reachable_executor s1 "\x" s2
             [Printf ("Expanded display is now on" +:+ nl)]);
      [|reflexivity].
    apply (reachable_executor s0 "\j" s1
             [Printf ("JSON output is now on" +:+ nl)]);
      [|reflexivity].
    apply reachable_startup.
Defined.

(** ** JSON mode: binary cells *)

Local Open Scope N_scope.

Lemma isPrintableFrom_bytes s :
  isPrintableFrom 0 s = forallb printableByte s.
Proof.
  induction s as [|c t IH]; [done|].
  change (isPrintableFrom 0 (c :: t)) with
    (let '(r, size) := DecodeRuneInString (c :: t) in
     if (r <? 32) || (126 <? r) then false
     else isPrintableFrom (size - 1) t).
  cbn [forallb]. unfold printableByte at 1.
  destruct (N.ltb_spec (byte c) 0x80) as [Hlt|Hge].
  - rewrite (decode_ascii c t Hlt). cbn [Nat.sub]. rewrite IH.
    destruct (N.ltb_spec (byte c) 32), (N.ltb_spec 126 (byte c)),
      (N.leb_spec 32 (byte c)), (N.leb_spec (byte c) 126); try lia; done.
  - pose proof (decode_nonascii c t Hge) as Hr.
    destruct (DecodeRuneInString (c :: t)) as [r size]. simpl in Hr.
    destruct (N.ltb_spec 126 r); [|lia]. rewrite orb_true_r.
    destruct (N.leb_spec (byte c) 126); [lia|]. by rewrite andb_false_r.
Qed.

(** [isPrintable] holds exactly when every byte is printable ASCII: a
    byte outside ASCII is part of a rune above 126. *)
Lemma isPrintable_bytes s :
  isPrintable s = forallb printableByte (bytes_of s).
Proof. apply isPrintableFrom_bytes. Qed.

(** What JSON mode stores for a binary cell: the text when every byte is
    printable ASCII, and the prefix with the encoding of
    [hex.EncodeToString] otherwise. *)
Lemma jsonCell_bytes v :
  jsonCell (VBytes v) =
  if forallb printableByte (bytes_of v) then VString v
  else VString ("\x" +:+ EncodeToString v).
Proof. unfold jsonCell. by rewrite isPrintable_bytes. Qed.

(** C4.  The hexadecimal digits of JSON mode are those of
    [hex.EncodeToString], in lower case: the bytes AB 00 are stored as
    [\xab00], where the claim and the shared value formatter have
    [\xAB00].  The bytes 41 42 are stored as the text AB and the byte 00
    as [\x00]. *)
Theorem jsonCell_hex_digits_lower_case :
  jsonCell (VBytes (String "171" (String "000" ""))) = VString "\xab00" ∧
  "\x" +:+ upperHex (String "171" (String "000" "")) = "\xAB00" ∧
  jsonCell (VBytes "AB") = VString "AB" ∧
  jsonCell (VBytes (String "000" "")) = VString "\x00".
Proof. repeat split; vm_compute; reflexivity. Qed.

(** C10.  A binary cell of length zero is stored as the empty string:
    the loop of [isPrintable] has no rune to reject. *)
Theorem jsonCell_empty_bytes :
  isPrintable "" = true ∧ jsonCell (VBytes "") = VString "" ∧
  ∀ col, printJSON [col] [[VBytes ""]] = [{[col := VString ""]}].
Proof. done. Qed.

Local Close Scope N_scope.

(** ** The value formatter *)

Local Open Scope N_scope.

Lemma string_length_app (a b : string) :
  String.length (a +:+ b) = (String.length a + String.length b)%nat.
Proof.
  induction a as [|x a IH]; [done|].
  change (S (String.length (a +:+ b)) = S (String.length a + String.length b)).
  by rewrite IH.
Qed.

Lemma byte_digitChar d : d < 10 → byte (digitChar d) = 48 + d.
Proof. intros Hd. unfold byte, digitChar. apply N_ascii_embedding. lia. Qed.

Lemma formatBits_acc k n acc : formatBits k n acc = formatBits k n "" +:+ acc.
Proof.
  revert n acc. induction k as [|k IH]; intros n acc; [done|].
  simpl. destruct (n <? 10); [done|].
  rewrite IH. rewrite (IH _ (String _ "")). by rewrite string_app_assoc.
Qed.

Lemma formatBits_step k n :
  formatBits (S k) n "" =
  if n <? 10 then String (digitChar n) ""
  else formatBits k (n / 10) "" +:+ String (digitChar (n mod 10)) "".
Proof.
  simpl. destruct (N.ltb_spec n 10) as [Hlt|Hge].
  - by rewrite N.mod_small.
  - apply formatBits_acc.
Qed.

Lemma formatBits_length k n j :
  n < 10 ^ N.of_nat (S j) → (String.length (formatBits k n "") ≤ S j)%nat.
Proof.
  revert n j. induction k as [|k IH]; intros n j Hn; [simpl; lia|].
  rewrite formatBits_step. destruct (N.ltb_spec n 10) as [Hlt|Hge]; [simpl; lia|].
  rewrite string_length_app. simpl String.length.
  destruct j as [|j]; [simpl in Hn; lia|].
  specialize (IH (n / 10) j).
  assert (n / 10 < 10 ^ N.of_nat (S j)); [|lia].
  apply N.Div0.div_lt_upper_bound.
  rewrite <- N.pow_succ_r'. by rewrite <- Nat2N.inj_succ.
Qed.

Lemma allDigits_app a b : allDigits (a +:+ b) = allDigits a && allDigits b.
Proof.
  induction a as [|x a IH]; [done|].
  change (isDigit x && allDigits (a +:+ b) = isDigit x && allDigits a && allDigits b).
  by rewrite IH, andb_assoc.
Qed.

Lemma isDigit_digitChar d : d < 10 → isDigit (digitChar d) = true.
Proof.
  intros Hd. unfold isDigit. rewrite byte_digitChar by done.
  apply andb_true_intro. split; apply N.leb_le; lia.
Qed.

Lemma formatBits_allDigits k n : allDigits (formatBits k n "") = true.
Proof.
  revert n. induction k as [|k IH]; intros n; [done|].
  rewrite formatBits_step. destruct (N.ltb_spec n 10) as [Hlt|Hge].
  - simpl. by rewrite isDigit_digitChar.
  - rewrite allDigits_app, IH. simpl.
    rewrite isDigit_digitChar; [done|]. apply N.mod_lt. lia.
Qed.

Lemma decimalValueFrom_app a x y :
  decimalValueFrom a (x +:+ y) = decimalValueFrom (decimalValueFrom a x) y.
Proof.
  revert a. induction x as [|c x IH]; intros a; [done|].
  change (decimalValueFrom (10 * a + (byte c - 48)) (x +:+ y) =
          decimalValueFrom (decimalValueFrom (10 * a + (byte c - 48)) x) y).
  apply IH.
Qed.

Lemma formatBits_value k n :
  n < 2 ^ N.of_nat k → decimalValue (formatBits k n "") = n.
Proof.
  unfold decimalValue. revert n. induction k as [|k IH]; intros n Hn.
  - simpl in *. lia.
  - rewrite formatBits_step. destruct (N.ltb_spec n 10) as [Hlt|Hge].
    + cbn [decimalValueFrom]. rewrite byte_digitChar by done. lia.
    + rewrite decimalValueFrom_app, IH.
      * cbn [decimalValueFrom]. rewrite byte_digitChar by (apply N.mod_lt; lia).
        pose proof (N.div_mod n 10 ltac:(lia)) as Hdm. clear Hn.
        set (q := n / 10) in *. set (r := n mod 10) in *. clearbody q r. lia.
      * rewrite Nat2N.inj_succ, N.pow_succ_r' in Hn.
        apply N.Div0.div_lt_upper_bound. lia.
Qed.

Lemma FormatUint_value n : decimalValue (FormatUint n) = n.
Proof.
  apply formatBits_value. destruct n as [|p]; [done|].
  rewrite Nat2N.inj_succ, N2Nat.id.
  apply N.log2_spec. lia.
Qed.

Lemma zeros_length k : String.length (zeros k) = k.
Proof. induction k as [|k IH]; simpl; [done|]. by rewrite IH. Qed.

Lemma zeros_allDigits k : allDigits (zeros k) = true.
Proof. induction k as [|k IH]; simpl; [done|]. by rewrite IH. Qed.

Lemma zeros_value k s : decimalValue (zeros k +:+ s) = decimalValue s.
Proof.
  unfold decimalValue. rewrite decimalValueFrom_app. f_equal.
  induction k as [|k IH]; [done|]. simpl. exact IH.
Qed.

(** A number below [10 ^ width] is printed with exactly [width] digits. *)
Lemma zeroPadded_spec width n :
  n < 10 ^ N.of_nat (S width) →
  String.length (zeroPadded (S width) n) = S width ∧
  allDigits (zeroPadded (S width) n) = true ∧
  decimalValue (zeroPadded (S width) n) = n.
Proof.
  intros Hn. unfold zeroPadded.
  pose proof (formatBits_length (S (N.to_nat (N.log2 n))) n width Hn) as Hlen.
  fold (FormatUint n) in Hlen.
  split; [|split].
  - rewrite string_length_app, zeros_length. lia.
  - rewrite allDigits_app, zeros_allDigits. apply formatBits_allDigits.
  - rewrite zeros_value. apply FormatUint_value.
Qed.

(** *** Hexadecimal digits *)

Lemma hex_pair c :
  let h := hexDigit (N.shiftr (byte c) 4) in
  let l := hexDigit (N.land (byte c) 0x0F) in
  (byte h <? RuneSelf) = true ∧ (byte l <? RuneSelf) = true ∧
  (if isLower h then ascii_of_N (byte h - 32) else h)
  = upperHexDigit (N.shiftr (byte c) 4) ∧
  (if isLower l then ascii_of_N (byte l - 32) else l)
  = upperHexDigit (N.land (byte c) 0x0F).
Proof. destruct c as [[] [] [] [] [] [] [] []]; vm_compute; done. Qed.

Lemma isASCII_EncodeToString v : isASCII (EncodeToString v) = true.
Proof.
  induction v as [|c v IH]; [done|].
  destruct (hex_pair c) as (Hh & Hl & _). cbn [EncodeToString isASCII].
  by rewrite Hh, Hl, IH.
Qed.

Lemma upperASCII_EncodeToString v : upperASCII (EncodeToString v) = upperHex v.
Proof.
  induction v as [|c v IH]; [done|].
  destruct (hex_pair c) as (_ & _ & Hh & Hl).
  cbn [EncodeToString upperASCII upperHex]. by rewrite Hh, Hl, IH.
Qed.

Lemma upperASCII_no_lower s : hasLower s = false → upperASCII s = s.
Proof.
  induction s as [|c s IH]; [done|].
  cbn [hasLower upperASCII]. intros [-> Hs]%orb_false_elim. by rewrite IH.
Qed.

(** The encoding of [hex.EncodeToString] is ASCII, so [strings.ToUpper]
    takes its ASCII path on it. *)
Lemma ToUpper_EncodeToString MapToUpper v :
  ToUpper MapToUpper (EncodeToString v) = upperHex v.
Proof.
  unfold ToUpper. rewrite isASCII_EncodeToString.
  destruct (hasLower (EncodeToString v)) eqn:Hlow.
  - apply upperASCII_EncodeToString.
  - by rewrite <- (upperASCII_no_lower _ Hlow), upperASCII_EncodeToString.
Qed.

(** *** Timestamps *)

Lemma formatTimePadded_microseconds t :
  Nanosecond t < 10 ^ 9 →
  ∃ frac,
    formatTimePadded t = Format_DateTime t +:+ "." +:+ frac ∧
    String.length frac = 6%nat ∧ allDigits frac = true ∧
    decimalValue frac = Nanosecond t / 1000.
Proof.
  intros Hns. exists (zeroPadded 6 (Nanosecond t / 1000)).
  split; [done|]. apply (zeroPadded_spec 5).
  apply N.Div0.div_lt_upper_bound. exact Hns.
Qed.

Lemma Format_DateTime_length t :
  (0 ≤ Year t < 10000)%Z → Month t < 100 → Day t < 100 → Hour t < 100 →
  Minute t < 100 → Second t < 100 →
  String.length (Format_DateTime t) = 19%nat.
Proof.
  intros Hy Hmo Hd Hh Hmi Hs. unfold Format_DateTime, appendInt.
  destruct (Z.ltb_spec (Year t) 0) as [?|_]; [lia|].
  rewrite !string_length_app.
  destruct (zeroPadded_spec 3 (Z.abs_N (Year t)) ltac:(simpl; lia)) as [-> _].
  destruct (zeroPadded_spec 1 (Month t) Hmo) as [-> _].
  destruct (zeroPadded_spec 1 (Day t) Hd) as [-> _].
  destruct (zeroPadded_spec 1 (Hour t) Hh) as [-> _].
  destruct (zeroPadded_spec 1 (Minute t) Hmi) as [-> _].
  destruct (zeroPadded_spec 1 (Second t) Hs) as [-> _].
  reflexivity.
Qed.

(** C5.  The shared value formatter maps Null to the text NULL, a binary
    value to backslash-x followed by the upper-case hexadecimal encoding of
    its bytes, a timestamp to its date and time down to the second
    followed by a point and exactly six zero-padded digits of
    microseconds, and every other value to its default text. *)
Theorem formatValue_by_kind (MapToUpper : string → string)
    (FormatFloat : float64 → string) :
  let format := formatValue MapToUpper FormatFloat in
  format VNil = "NULL" ∧
  (∀ v, format (VBytes v) = "\x" +:+ upperHex v) ∧
  (∀ t, Nanosecond t < 10 ^ 9 →
        ∃ frac,
          format (VTime t) = Format_DateTime t +:+ "." +:+ frac ∧
          String.length frac = 6%nat ∧ allDigits frac = true ∧
          decimalValue frac = Nanosecond t / 1000) ∧
  (∀ n, format (VInt64 n) = FormatInt n) ∧
  (∀ f, format (VFloat64 f) = FormatFloat f) ∧
  (∀ b, format (VBool b) = if b then "true" else "false") ∧
  (∀ s, format (VString s) = s).
Proof.
  intros format. repeat split.
  - intros v. unfold format. simpl. by rewrite ToUpper_EncodeToString.
  - intros t Ht. apply formatTimePadded_microseconds, Ht.
Qed.

Lemma formatValue_by_kind_witness :
  let t := {| Year := 2024; Month := 2; Day := 29; Hour := 23; Minute := 59;
              Second := 7; Nanosecond := 1234567 |} in
  ∃ frac,
    formatValue id (λ _, "") (VTime t) = "2024-02-29 23:59:07" +:+ "." +:+ frac ∧
    String.length frac = 6%nat ∧ allDigits frac = true ∧
    decimalValue frac = 1234.
Proof.
  intros t.
  destruct (formatValue_by_kind id (λ _, "")) as (_ & _ & Htime & _).
  apply (Htime t). vm_compute. reflexivity.
Defined.

Example formatValue_examples :
  let format := formatValue id (λ _, "") in
  format (VBytes (String "222" (String "173" "o"))) = "\xDEAD6F" ∧
  format (VInt64 (-42)) = "-42" ∧
  format (VTime {| Year := 987; Month := 6; Day := 5; Hour := 4; Minute := 3;
                   Second := 2; Nanosecond := 999999999 |})
  = "0987-06-05 04:03:02.999999".
Proof. repeat split; vm_compute; reflexivity. Qed.

Local Close Scope N_scope.

(** ** Table mode: numeric columns *)

Section TableMode.
Context (ParseFloat Atoi : string → bool) (MapToUpper : string → string)
  (FormatFloat : float64 → string).

Local Abbreviation isNumeric := (isNumeric ParseFloat Atoi).
Local Abbreviation printPrettyTable :=
  (printPrettyTable ParseFloat Atoi MapToUpper FormatFloat).

(** The scan of [%f] stops at the first byte that cannot continue the
    number: of [42abc] it converts [42]. *)
Lemma isNumeric_42abc : isNumeric "42abc" = ParseFloat "42".
Proof. reflexivity. Qed.

(** So does a timestamp, of which the year is converted. *)
Lemma isNumeric_timestamp :
  isNumeric "2024-02-29 23:59:07.001234" = ParseFloat "2024".
Proof. reflexivity. Qed.

(** The columns are configured from the first row alone. *)
Lemma columnConfigs_first_row cols vals rest rest' :
  columnConfigs (printPrettyTable cols (vals :: rest)) =
  columnConfigs (printPrettyTable cols (vals :: rest')).
Proof. reflexivity. Qed.

(** A column is configured right-aligned exactly when [isNumeric] holds of
    the formatted cell of the first row. *)
Lemma rightAligned_spec i sampleRow n :
  {| Number := n; Align_ := AlignRight |} ∈ rightAligned ParseFloat Atoi i sampleRow ↔
  ∃ val, (i < n)%nat ∧ sampleRow !! (n - S i)%nat = Some val ∧ isNumeric val = true.
Proof.
  revert i. induction sampleRow as [|v rest IH]; intros i; simpl.
  - split; [by intros ?%elem_of_nil|]. by intros (? & _ & ? & _).
  - destruct (isNumeric v) eqn:Hv.
    + rewrite elem_of_cons, IH. split.
      * intros [[= ->]|(val & Hi & Hl & Hn)].
        -- exists v. split; [lia|]. by replace (i + 1 - S i)%nat with 0%nat by lia.
        -- exists val. split; [lia|].
           by replace (n - S i)%nat with (S (n - S (S i))) by lia.
      * intros (val & Hi & Hl & Hn).
        destruct (decide (n = i + 1)%nat) as [->|Hne]; [by left|right].
        exists val. split; [lia|].
        by replace (n - S i)%nat with (S (n - S (S i))) in Hl by lia.
    + rewrite IH. split.
      * intros (val & Hi & Hl & Hn). exists val. split; [lia|].
        by replace (n - S i)%nat with (S (n - S (S i))) by lia.
      * intros (val & Hi & Hl & Hn).
        destruct (decide (n = i + 1)%nat) as [->|Hne].
        { replace (i + 1 - S i)%nat with 0%nat in Hl by lia.
          simpl in Hl. congruence. }
        exists val. split; [lia|].
        by replace (n - S i)%nat with (S (n - S (S i))) in Hl by lia.
Qed.

(** C6.  The classification is by [fmt.Sscanf], which reads a number at
    the start of the cell and leaves the rest unread: a first-row cell
    [42abc], which does not parse as a floating-point number while [42]
    does, is numeric for [isNumeric], and its column is configured
    right-aligned. *)
Theorem isNumeric_accepts_numeric_prefix cols vals rest :
  ParseFloat "42" = true → ParseFloat "42abc" = false →
  isNumeric "42abc" = true ∧
  isNumeric "42abc" ≠ ParseFloat "42abc" ∧
  configuredAlign
    (printPrettyTable cols ((VString "42abc" :: vals) :: rest)) 1
  = AlignRight.
Proof.
  intros H42 Hfull. split; [|split].
  - by rewrite isNumeric_42abc.
  - by rewrite isNumeric_42abc, H42, Hfull.
  - unfold configuredAlign. cbn [printPrettyTable columnConfigs fmap list_fmap].
    cbn [rightAligned formatValue]. rewrite isNumeric_42abc, H42. reflexivity.
Qed.

End TableMode.

Lemma isNumeric_accepts_numeric_prefix_witness :
  let ParseFloat := λ s : string, bool_decide (s = "42") in
  let Atoi := λ _ : string, false in
  isNumeric ParseFloat Atoi "42abc" = true ∧
  isNumeric ParseFloat Atoi "42abc" ≠ ParseFloat "42abc" ∧
  configuredAlign
    (printPrettyTable ParseFloat Atoi id (λ _, "") ["a"; "b"]
       [[VString "42abc"; VNil]; [VString "x"; VNil]]) 1
  = AlignRight.
Proof.
  intros ParseFloat Atoi.
  apply (isNumeric_accepts_numeric_prefix ParseFloat Atoi id (λ _, "")
           ["a"; "b"] [VNil] [[VString "x"; VNil]]); reflexivity.
Defined.

(** ** Completion: a failing column query *)

Section CompletionFailure.
Context (dbQuery : string → option (list (list Value)))
  (scanName scanColumn : list Value → string)
  (FindStringSubmatch : string → string → option (list string))
  (MapToUpper : string → string).

Lemma FilterHasPrefix_nil sub : FilterHasPrefix MapToUpper [] sub = [].
Proof. unfold FilterHasPrefix. by destruct (decide (sub = "")). Qed.

Lemma firstMatch_matchingRule rs text :
  firstMatch dbQuery scanName scanColumn FindStringSubmatch MapToUpper rs text =
  match matchingRule FindStringSubmatch rs text with
  | Some (h, m) => handle dbQuery scanName scanColumn MapToUpper h m
  | None => []
  end.
Proof.
  induction rs as [|[pattern h] rs IH]; simpl; [done|].
  by destruct (FindStringSubmatch pattern text).
Qed.

(** C9.  When the query for the columns of a table fails, the column
    suggestions for it are empty: [getColumnSuggestions] returns no
    suggestion, the filter keeps none, and so does the completer for every
    text whose first matching rule asks for the columns of that table. *)
Theorem failed_column_query_gives_no_suggestions (table : string) :
  dbQuery ("PRAGMA table_info(" +:+ table +:+ ")") = None →
  getColumnSuggestions dbQuery scanColumn table = [] ∧
  (∀ colPrefix,
     FilterHasPrefix MapToUpper
       (getColumnSuggestions dbQuery scanColumn table) colPrefix = []) ∧
  (∀ text tableIdx colPrefixIdx m,
     matchingRule FindStringSubmatch rules text
       = Some (suggestColumns tableIdx colPrefixIdx, m) →
     m !!! tableIdx = table →
     completer dbQuery scanName scanColumn FindStringSubmatch MapToUpper text
     = []).
Proof.
  intros Hfail.
  assert (Hnone : getColumnSuggestions dbQuery scanColumn table = []).
  { unfold getColumnSuggestions. by rewrite Hfail. }
  split; [done|]. split.
  - intros colPrefix. rewrite Hnone. apply FilterHasPrefix_nil.
  - intros text tableIdx colPrefixIdx m Hrule Htable.
    unfold completer. rewrite firstMatch_matchingRule, Hrule.
    simpl. rewrite Htable, Hnone. apply FilterHasPrefix_nil.
Qed.

End CompletionFailure.

Lemma failed_column_query_gives_no_suggestions_witness :
  let dbQuery := λ _ : string, @None (list (list Value)) in
  let scan := λ _ : list Value, "" in
  let FindStringSubmatch := λ pattern text : string,
    if decide (pattern = "(?i)(\w+)\.(\w*)$") then Some [text; "nosuch"; "na"]
    else None in
  getColumnSuggestions dbQuery scan "nosuch" = [] ∧
  (∀ colPrefix,
     FilterHasPrefix id (getColumnSuggestions dbQuery scan "nosuch") colPrefix
     = []) ∧
  completer dbQuery scan scan FindStringSubmatch id "select nosuch.na" = [].
Proof.
  intros dbQuery scan FindStringSubmatch.
  destruct (failed_column_query_gives_no_suggestions dbQuery scan scan
              FindStringSubmatch id "nosuch" eq_refl) as (H1 & H2 & H3).
  split; [exact H1|]. split; [exact H2|].
  apply (H3 "select nosuch.na" 1%nat 2%nat ["select nosuch.na"; "nosuch"; "na"]);
    reflexivity.
Defined.

(** ** More on load-time deduplication *)

Lemma dedupHistory_from_indices lines idxs :
  StronglySorted lt idxs → (∀ i, i ∈ idxs ↔ isLatest lines i) →
  dedupHistory lines = (λ idx, lines !!! idx) <$> idxs.
Proof.
  intros Hsorted Hmem.
  destruct (dedupHistory_indices lines) as (idxs' & Hsorted' & Hmem' & ->).
  f_equal. apply sorted_lt_unique; [done|done|].
  intros i. by rewrite Hmem, Hmem'.
Qed.

Lemma lookup_total_shift (x : string) l js :
  Forall (λ j, 1 ≤ j) js →
  (λ j, (x :: l) !!! j) <$> js = (λ j, l !!! j) <$> (pred <$> js).
Proof.
  intros Hjs. rewrite <- list_fmap_compose. apply Forall_fmap_ext_1.
  eapply Forall_impl; [exact Hjs|]. intros [|j] Hj; [lia|done].
Qed.

Lemma StronglySorted_lt_pred js :
  Forall (λ j, 1 ≤ j) js → StronglySorted lt js → StronglySorted lt (pred <$> js).
Proof.
  intros Hpos Hs. induction Hs as [|j js Hs IH Hj]; [constructor|].
  apply Forall_cons in Hpos as [Hj1 Hpos]. rewrite fmap_cons.
  constructor; [by apply IH|].
  apply Forall_fmap. rewrite Forall_forall in Hj, Hpos |- *.
  intros k Hk. specialize (Hj k Hk). specialize (Hpos k Hk). simpl. lia.
Qed.

Lemma lookup_sorted_sublist (l : list string) idxs :
  StronglySorted lt idxs → Forall (λ i, i < length l) idxs →
  ((λ i, l !!! i) <$> idxs) `sublist_of` l.
Proof.
  revert idxs. induction l as [|x l IH]; intros idxs Hs Hb.
  - destruct idxs as [|i idxs]; [constructor|].
    apply Forall_cons in Hb as [Hi _]. simpl in Hi. lia.
  - destruct idxs as [|i idxs]; [apply sublist_nil_l|].
    assert (Htail : Forall (λ j, 1 ≤ j) idxs).
    { apply StronglySorted_inv in Hs as [_ Hi].
      eapply Forall_impl; [exact Hi|]. intros j Hj. simpl in Hj. lia. }
    assert (Hshift : ∀ js, Forall (λ j, 1 ≤ j) js → StronglySorted lt js →
              Forall (λ i, i < length (x :: l)) js →
              ((λ j, (x :: l) !!! j) <$> js) `sublist_of` l).
    { intros js Hpos Hjs Hbjs. rewrite lookup_total_shift by done.
      apply IH; [by apply StronglySorted_lt_pred|].
      apply Forall_fmap. rewrite Forall_forall in Hpos, Hbjs |- *.
      intros j Hj. specialize (Hpos j Hj). specialize (Hbjs j Hj).
      simpl in *. lia. }
    destruct i as [|i].
    + rewrite fmap_cons. apply sublist_skip.
      apply StronglySorted_inv in Hs as [Hs _].
      apply Forall_cons in Hb as [_ Hb]. by apply Hshift.
    + apply sublist_cons. apply Hshift; [|done|done].
      apply Forall_cons. split; [lia|done].
Qed.

(** X1.  The survivors of load-time deduplication are entries of the
    input, untouched and in the order they had there. *)
Theorem dedupHistory_sublist (lines : list string) :
  dedupHistory lines `sublist_of` lines.
Proof.
  destruct (dedupHistory_indices lines) as (idxs & Hsorted & Hmem & ->).
  apply lookup_sorted_sublist; [done|].
  apply Forall_forall. intros i (e & He & _)%Hmem. by eapply lookup_lt_Some.
Qed.

(** X2.  As many entries survive as the input has distinct non-blank
    trimmed texts. *)
Theorem dedupHistory_length (lines : list string) :
  length (dedupHistory lines) = size (distinctTrimmed lines ∖ {[""]}).
Proof.
  rewrite <- distinctTrimmed_dedupHistory. unfold distinctTrimmed.
  rewrite size_list_to_set by apply dedupHistory_NoDup_trimmed.
  by rewrite length_fmap.
Qed.

(** *** The log of the next session *)

Lemma isLatest_fmap (f : string → string) lines i :
  (∀ e, TrimSpace (f e) = TrimSpace e) →
  isLatest (f <$> lines) i ↔ isLatest lines i.
Proof.
  intros Hf. unfold isLatest. split.
  - intros (e & He & Hnb & Hlast).
    apply list_lookup_fmap_Some in He as (e0 & -> & He0).
    exists e0. rewrite Hf in Hnb. split; [done|]. split; [done|].
    intros j e' Hj He'. rewrite <- (Hf e0), <- (Hf e').
    apply (Hlast j); [done|]. by rewrite list_lookup_fmap, He'.
  - intros (e & He & Hnb & Hlast). exists (f e).
    split; [by rewrite list_lookup_fmap, He|]. rewrite Hf. split; [done|].
    intros j e' Hj He'.
    apply list_lookup_fmap_Some in He' as (e0 & -> & He0).
    rewrite Hf. by apply (Hlast j).
Qed.

(** Deduplication looks at the trimmed texts only. *)
Lemma dedupHistory_fmap (f : string → string) lines :
  (∀ e, TrimSpace (f e) = TrimSpace e) →
  dedupHistory (f <$> lines) = f <$> dedupHistory lines.
Proof.
  intros Hf.
  destruct (dedupHistory_indices lines) as (idxs & Hsorted & Hmem & ->).
  rewrite (dedupHistory_from_indices (f <$> lines) idxs Hsorted).
  - rewrite <- list_fmap_compose. apply Forall_fmap_ext_1, Forall_forall.
    intros i (e & He & _)%Hmem. simpl.
    rewrite (list_lookup_total_correct _ _ _ He).
    apply list_lookup_total_correct. by rewrite list_lookup_fmap, He.
  - intros i. by rewrite Hmem, isLatest_fmap.
Qed.

Lemma isLatest_app_covered old lines i :
  (∀ e, e ∈ old → TrimSpace e ≠ "" →
        ∃ e', e' ∈ lines ∧ TrimSpace e' = TrimSpace e) →
  isLatest (old ++ lines) i ↔
  length old ≤ i ∧ isLatest lines (i - length old).
Proof.
  intros Hcov. unfold isLatest. split.
  - intros (e & He & Hnb & Hlast).
    destruct (decide (i < length old)) as [Hi|Hi].
    + exfalso. rewrite lookup_app_l in He by done.
      destruct (Hcov e ltac:(by eapply list_elem_of_lookup_2) Hnb)
        as (e' & [k Hk]%list_elem_of_lookup_1 & Heq).
      apply (Hlast (length old + k) e'); [lia| |done].
      rewrite lookup_app_r by lia.
      by replace (length old + k - length old) with k by lia.
    + split; [lia|]. rewrite lookup_app_r in He by lia.
      exists e. split; [done|]. split; [done|].
      intros j e' Hj He'. apply (Hlast (length old + j)); [lia|].
      rewrite lookup_app_r by lia.
      by replace (length old + j - length old) with j by lia.
  - intros [Hi (e & He & Hnb & Hlast)]. exists e.
    split; [by rewrite lookup_app_r by lia|]. split; [done|].
    intros j e' Hj He'. rewrite lookup_app_r in He' by lia.
    apply (Hlast (j - length old)); [lia|done].
Qed.

(** Entries whose trimmed texts all come again later do not survive. *)
Lemma dedupHistory_app_covered old lines :
  (∀ e, e ∈ old → TrimSpace e ≠ "" →
        ∃ e', e' ∈ lines ∧ TrimSpace e' = TrimSpace e) →
  dedupHistory (old ++ lines) = dedupHistory lines.
Proof.
  intros Hcov.
  destruct (dedupHistory_indices lines) as (idxs & Hsorted & Hmem & ->).
  rewrite (dedupHistory_from_indices (old ++ lines)
             ((λ i, length old + i) <$> idxs)).
  - rewrite <- list_fmap_compose. apply list_fmap_ext. intros _ i _. simpl.
    rewrite lookup_total_app_r by lia.
    by replace (length old + i - length old) with i by lia.
  - eapply StronglySorted_fmap; [|done]. intros i j Hij. lia.
  - intros i. rewrite (isLatest_app_covered old lines i Hcov), list_elem_of_fmap.
    split.
    + intros (k & -> & Hk%Hmem). split; [lia|].
      by replace (length old + k - length old) with k by lia.
    + intros [Hi Hlat]. exists (i - length old). split; [lia|]. by apply Hmem.
Qed.

(** X3.  The log the next session starts with is the log of this session,
    deduplicated, each entry less a final line feed: what an earlier
    session left in the file is superseded by the blocks appended. *)
Theorem next_session_log (file : option string) (new : list string) :
  let log := loadHistory file [] ++ new in
  appendable file = true → forallb storable log = true →
  reloaded file log = chomp <$> dedupHistory log.
Proof.
  intros log Hfile Hlog.
  destruct (decide (log = [])) as [Hnil|Hne].
  { unfold reloaded. rewrite Hnil. simpl saveHistory.
    by apply app_eq_nil in Hnil as [-> _]. }
  rewrite (reloaded_eq file log Hfile Hlog Hne).
  rewrite dedupHistory_app_covered.
  - apply dedupHistory_fmap, TrimSpace_chomp.
  - intros e [k He]%list_elem_of_lookup_1 Hnb.
    destruct (latest_occurrence_exists _ _ _ He Hnb) as (j & e' & Hj & He' & Heq).
    exists (chomp e'). rewrite TrimSpace_chomp. split; [|done].
    apply list_elem_of_fmap. exists e'. split; [done|].
    unfold log. rewrite loadHistory_entriesOf. apply elem_of_app. left.
    apply dedupHistory_elem_of. eauto.
Qed.

(** *** What saving does to the file *)

Lemma string_cons_app x (a b : string) :
  String x a +:+ b = String x (a +:+ b).
Proof. done. Qed.

Lemma written_cons e log : written (e :: log) = historyBlock e +:+ written log.
Proof. done. Qed.

Lemma written_ends_nl log : log ≠ [] → ∃ c, written log = c +:+ nl.
Proof.
  induction log as [|e log IH]; [done|]. intros _.
  rewrite written_cons, historyBlock_lines.
  destruct log as [|e' log].
  - exists (customHistoryDelimiter +:+ String LF (chomp e)).
    change (written []) with "". unfold nl.
    by rewrite string_app_assoc.
  - destruct IH as [c Hc]; [done|]. rewrite Hc.
    exists (customHistoryDelimiter +:+ String LF (chomp e +:+ String LF c)).
    by repeat (rewrite string_app_assoc || rewrite string_cons_app).
Qed.

Lemma splitLF_written_fits log :
  forallb storable log = true →
  forallb fitsBuffer (splitLF (written log)) = true.
Proof.
  intros Hlog%savedLines_storable. unfold written.
  rewrite splitLF_saved, forallb_app. apply andb_true_intro. split; [|done].
  induction (savedLines log) as [|x l IH]; [done|].
  apply andb_prop in Hlog as [[_ Hx]%andb_prop Hl]. simpl.
  by rewrite Hx, IH.
Qed.

(** X4.  Saving keeps the history file appendable, so that the sessions
    can go on: the file still ends with a line feed and has no over-long
    line.  The blocks already in the file are read as before, and the
    blocks appended are the entries of the log, less a final line feed. *)
Theorem saveHistory_keeps_appendable (openFails : bool)
    (file : option string) (log : list string) :
  appendable file = true → forallb storable log = true →
  appendable (saveHistory openFails file log) = true ∧
  entriesOf (saveHistory false file log) = entriesOf file ++ (chomp <$> log).
Proof.
  intros Hfile Hlog. split.
  - unfold saveHistory. destruct log as [|e log]; [done|].
    destruct openFails; [done|]. fold (written (e :: log)).
    destruct (written_ends_nl (e :: log)) as [c Hc]; [done|].
    pose proof (splitLF_written_fits _ Hlog) as Hfit.
    unfold appendable. apply andb_true_intro. split.
    + rewrite Hc, <- string_app_assoc. by rewrite HasSuffix_app_nl, orb_true_r.
    + destruct file as [data|]; simpl default; [|done].
      apply andb_prop in Hfile as [Hend Hdata].
      apply orb_prop in Hend as [->%bool_decide_eq_true|Hend]; [done|].
      destruct (HasSuffix_nl_inv _ Hend) as [d ->].
      unfold nl in *. rewrite string_app_assoc.
      change (String LF "" +:+ ?s) with (String LF s).
      rewrite splitLF_app, forallb_app in Hdata |- *.
      apply andb_prop in Hdata as [-> _]. done.
  - destruct log as [|e log]; [by rewrite app_nil_r|].
    unfold saveHistory. fold (written (e :: log)). unfold entriesOf at 1.
    destruct file as [data|]; simpl default.
    + rewrite scanLines_append by done. by apply loadBlocks_after.
    + change ("" +:+ ?s) with s. unfold written.
      rewrite scanLines_saved by done.
      by rewrite (loadBlocks_saved _ [] [] Hlog).
Qed.

(** *** What a history file can give *)

Lemma splitLF_no_LF s : hasLF s = false → splitLF s = [s].
Proof.
  induction s as [|c s IH]; [done|]. simpl.
  intros [Hc%bool_decide_eq_false Hs]%orb_false_elim.
  destruct (decide (c = LF)); [done|]. by rewrite (IH Hs).
Qed.

Lemma splitLF_pieces data : Forall (λ p, hasLF p = false) (splitLF data).
Proof.
  induction data as [|c data IH]; simpl; [by repeat constructor|].
  destruct (decide (c = LF)) as [->|Hc]; [by constructor|].
  destruct (splitLF data) as [|p ps].
  - constructor; [|done]. simpl. by rewrite bool_decide_eq_false_2.
  - apply Forall_cons in IH as [Hp Hps]. constructor; [|done].
    simpl. rewrite Hp. by rewrite bool_decide_eq_false_2.
Qed.

Lemma Forall_dropFinalEmpty {P : string → Prop} pieces :
  Forall P pieces → Forall P (dropFinalEmpty pieces).
Proof.
  induction 1 as [|p ps Hp Hps IH]; [done|]. simpl.
  destruct ps as [|q ps]; [destruct (decide (p = "")); by repeat constructor|].
  by constructor.
Qed.

Lemma Forall_takeWhile {A} (P : A → Prop) (f : A → bool) l :
  Forall P l → Forall (λ x, P x ∧ f x = true) (takeWhile f l).
Proof.
  induction 1 as [|x l Hx Hl IH]; [done|]. simpl.
  destruct (f x) eqn:Hf; by constructor.
Qed.

Lemma hasLF_dropCR s : hasLF (dropCR s) = hasLF s.
Proof.
  induction s as [|c s IH]; [done|]. destruct s as [|c' s].
  - simpl. destruct (decide (c = CR)) as [->|]; [done|done].
  - change (dropCR (String c (String c' s)))
      with (String c (dropCR (String c' s))).
    change (hasLF (String c ?r)) with (bool_decide (c = LF) || hasLF r).
    by rewrite IH.
Qed.

Lemma length_dropCR s : (String.length (dropCR s) ≤ String.length s)%nat.
Proof.
  induction s as [|c s IH]; [done|]. destruct s as [|c' s].
  - simpl. destruct (decide (c = CR)); simpl; lia.
  - change (dropCR (String c (String c' s)))
      with (String c (dropCR (String c' s))).
    simpl String.length in *. lia.
Qed.

Lemma fitsBuffer_dropCR s : fitsBuffer s = true → fitsBuffer (dropCR s) = true.
Proof.
  unfold fitsBuffer. intros Hs%N.ltb_lt. apply N.ltb_lt.
  pose proof (length_dropCR s). lia.
Qed.

(** The lines the scanner gives have no line feed and fit its buffer. *)
Lemma scanLines_lines data :
  Forall (λ l, hasLF l = false ∧ fitsBuffer l = true) (scanLines data).
Proof.
  unfold scanLines. apply Forall_fmap.
  eapply Forall_impl;
    [apply Forall_takeWhile, Forall_dropFinalEmpty, splitLF_pieces|].
  intros l [Hl Hfit]. simpl. by rewrite hasLF_dropCR, fitsBuffer_dropCR.
Qed.

Lemma splitLF_Join block :
  block ≠ [] → Forall (λ l, hasLF l = false) block →
  splitLF (Join block nl) = block.
Proof.
  induction block as [|l block IH]; [done|]. intros _ Hb.
  apply Forall_cons in Hb as [Hl Hb].
  destruct block as [|l' block]; [by apply splitLF_no_LF|].
  change (Join (l :: l' :: block) nl) with (l +:+ nl +:+ Join (l' :: block) nl).
  unfold nl at 1. rewrite string_cons_app.
  change ("" +:+ ?s) with s.
  by rewrite splitLF_app, splitLF_no_LF, IH.
Qed.

Lemma readable_Join block :
  block ≠ [] →
  Forall (λ l, l ≠ customHistoryDelimiter ∧ hasLF l = false ∧
               fitsBuffer l = true) block →
  readable (Join block nl).
Proof.
  intros Hne Hb. unfold readable. rewrite splitLF_Join; [|done|].
  - eapply Forall_impl; [exact Hb|]. by intros l (? & _ & ?).
  - eapply Forall_impl; [exact Hb|]. by intros l (_ & ? & _).
Qed.

Lemma loadBlocks_readable scanned block hist :
  Forall (λ l, hasLF l = false ∧ fitsBuffer l = true) scanned →
  Forall (λ l, l ≠ customHistoryDelimiter ∧ hasLF l = false ∧
               fitsBuffer l = true) block →
  Forall readable hist →
  Forall readable (loadBlocks scanned block hist).
Proof.
  intros Hs. revert block hist.
  induction Hs as [|l scanned [Hl Hfit] Hs IH]; intros block hist Hb Hh.
  - simpl. destruct block as [|b block]; [done|].
    apply Forall_app. split; [done|]. constructor; [|done].
    by apply readable_Join.
  - simpl. destruct (decide (l = customHistoryDelimiter)) as [->|Hne].
    + destruct block as [|b block]; [by apply IH|].
      apply IH; [done|]. apply Forall_app. split; [done|].
      constructor; [|done]. by apply readable_Join.
    + apply IH; [|done]. apply Forall_app. split; [done|].
      by repeat constructor.
Qed.

(** X5.  Whatever the history file holds, an entry loaded from it is not
    blank, and none of its lines is the delimiter or overflows the buffer
    of the scanner. *)
Theorem loadHistory_entries (data : string) (e : string) :
  e ∈ loadHistory (Some data) [] →
  TrimSpace e ≠ "" ∧
  Forall (λ l, l ≠ customHistoryDelimiter ∧ fitsBuffer l = true) (splitLF e).
Proof.
  intros He. split.
  - pose proof (dedupHistory_nonblank (loadBlocks (scanLines data) [] [])) as Hnb.
    rewrite Forall_forall in Hnb. by apply Hnb.
  - apply dedupHistory_subseteq in He.
    pose proof (loadBlocks_readable (scanLines data) [] []
                  (scanLines_lines data) ltac:(done) ltac:(done)) as Hr.
    rewrite Forall_forall in Hr. by apply Hr.
Qed.

(** Instances. *)

Lemma next_session_log_witness :
  let file := Some ("---" +:+ nl +:+ "select 1;" +:+ nl) in
  let new := ["select 2;"; " select 1;"] in
  reloaded file (loadHistory file [] ++ new)
  = chomp <$> dedupHistory (loadHistory file [] ++ new).
Proof.
  intros file new. apply (next_session_log file new); vm_compute; reflexivity.
Defined.

Lemma saveHistory_keeps_appendable_witness :
  let file := Some ("---" +:+ nl +:+ "select 1;" +:+ nl) in
  let log := ["select 1;"; "select *" +:+ nl +:+ "from t;"] in
  appendable (saveHistory false file log) = true ∧
  entriesOf (saveHistory false file log) = entriesOf file ++ (chomp <$> log).
Proof.
  intros file log.
  apply (saveHistory_keeps_appendable false file log); vm_compute; reflexivity.
Defined.

Lemma loadHistory_entries_witness :
  let data := "---" +:+ nl +:+ "select *" +:+ nl +:+ "from t;" +:+ nl in
  let e := "select *" +:+ nl +:+ "from t;" in
  TrimSpace e ≠ "" ∧
  Forall (λ l, l ≠ customHistoryDelimiter ∧ fitsBuffer l = true) (splitLF e).
Proof.
  intros data e. apply (loadHistory_entries data e).
  vm_compute. apply list_elem_of_here.
Defined.

(** ** The router and the log *)

Lemma executor_blank s input :
  TrimSpace input = "" → executor s input = Continue s [].
Proof. intros Hq. unfold executor. rewrite Hq. done. Qed.

Lemma executor_Exit s input :
  executor s input = Exit ↔ TrimSpace input = "exit".
Proof.
  unfold executor. cbv zeta.
  destruct (decide (TrimSpace input = "")) as [Hq|Hq].
  { rewrite Hq. split; discriminate. }
  destruct (decide (TrimSpace input = "exit")) as [He|He]; [done|].
  split; [|done].
  repeat match goal with
  | |- context [if decide ?P then _ else _] => destruct (decide P)
  | |- context [if HasPrefix ?a ?b then _ else _] => destruct (HasPrefix a b)
  | |- context [if ?a || ?b then _ else _] => destruct (a || b)
  end; discriminate.
Qed.

Lemma executor_history s input s' did :
  executor s input = Continue s' did → TrimSpace input ≠ "" →
  historyLines s' = historyLines s ++ [TrimSpace input].
Proof.
  unfold executor. cbv zeta. intros Hstep Hq. revert Hstep.
  destruct (decide (TrimSpace input = "")); [done|].
  repeat match goal with
  | |- context [if decide ?P then _ else _] => destruct (decide P)
  | |- context [if HasPrefix ?a ?b then _ else _] => destruct (HasPrefix a b)
  | |- context [if ?a || ?b then _ else _] => destruct (a || b)
  end; intros Heq; try discriminate; by injection Heq as <- _.
Qed.

(** X6.  Every line that is not blank is appended to the log, trimmed,
    whatever it is and whatever becomes of it, unless it is [exit]; a
    blank line changes nothing and does nothing. *)
Theorem executor_records_every_line (s : Session) (input : string) :
  (TrimSpace input = "" → executor s input = Continue s []) ∧
  (TrimSpace input = "exit" ↔ executor s input = Exit) ∧
  (TrimSpace input ≠ "" → TrimSpace input ≠ "exit" →
   ∃ s' did, executor s input = Continue s' did ∧
             historyLines s' = historyLines s ++ [TrimSpace input]).
Proof.
  split; [apply executor_blank|]. split; [by rewrite executor_Exit|].
  intros Hq He. destruct (executor s input) as [|s' did] eqn:Hstep.
  - by apply executor_Exit in Hstep.
  - exists s', did. split; [done|]. by eapply executor_history.
Qed.

(** X7.  Only the two toggles write the mode flags: a statement, failed or
    not, and every other command leave them as they are. *)
Theorem executor_keeps_flags (s : Session) (input : string) s' did :
  executor s input = Continue s' did →
  TrimSpace input ≠ "\x" → TrimSpace input ≠ "\j" →
  expandedMode s' = expandedMode s ∧ jsonMode s' = jsonMode s.
Proof.
  unfold executor. cbv zeta. intros Hstep Hx Hj. revert Hstep.
  repeat match goal with
  | |- context [if decide ?P then _ else _] => destruct (decide P)
  | |- context [if HasPrefix ?a ?b then _ else _] => destruct (HasPrefix a b)
  | |- context [if ?a || ?b then _ else _] => destruct (a || b)
  end; intros Heq; try discriminate; try done; by injection Heq as <- _.
Qed.

Lemma recorded_cons input inputs :
  recorded (input :: inputs) =
  (if decide (TrimSpace input = "") then [] else [TrimSpace input])
  ++ recorded inputs.
Proof.
  unfold recorded. rewrite fmap_cons, filter_cons.
  by destruct (decide (TrimSpace input = "")); destruct (decide (TrimSpace input ≠ "")).
Qed.

Lemma promptRun_spec s inputs :
  (Exists (λ input, TrimSpace input = "exit") inputs ∧
   promptRun s inputs = None) ∨
  (Forall (λ input, TrimSpace input ≠ "exit") inputs ∧
   ∃ s', promptRun s inputs = Some s' ∧
         historyLines s' = historyLines s ++ recorded inputs).
Proof.
  revert s. induction inputs as [|input inputs IH]; intros s.
  - right. split; [done|]. exists s. split; [done|].
    unfold recorded. simpl. by rewrite app_nil_r.
  - simpl. destruct (executor s input) as [|s1 did] eqn:Hstep.
    + left. split; [|done]. apply Exists_cons_hd. by eapply executor_Exit.
    + assert (He : TrimSpace input ≠ "exit").
      { intros He. apply (executor_Exit s) in He. congruence. }
      assert (H1 : historyLines s1 = historyLines s ++
                (if decide (TrimSpace input = "") then [] else [TrimSpace input])).
      { destruct (decide (TrimSpace input = "")) as [Hq|Hq].
        - rewrite (executor_blank s input Hq) in Hstep.
          injection Hstep as <- _. by rewrite app_nil_r.
        - by eapply executor_history. }
      destruct (IH s1) as [[Hex Hrun]|[Hall (s' & Hrun & Hh)]].
      * left. split; [by apply Exists_cons_tl|done].
      * right. split; [by constructor|]. exists s'. split; [done|].
        by rewrite Hh, H1, recorded_cons, app_assoc.
Qed.

(** X8.  A session ended by [exit] leaves the history file as it was:
    [os.Exit] ends the process before [saveHistory] is reached, and the
    lines of the session are not saved.  A session ended by the end of
    the input saves the log loaded at the start followed by the lines
    recorded. *)
Theorem main_saves_unless_exit (openFails : bool) (file : option string)
    (inputs : list string) :
  (Exists (λ input, TrimSpace input = "exit") inputs →
   main openFails file inputs = file) ∧
  (Forall (λ input, TrimSpace input ≠ "exit") inputs →
   main openFails file inputs =
   saveHistory openFails file (loadHistory file [] ++ recorded inputs)).
Proof.
  unfold main.
  destruct (promptRun_spec (startup file) inputs)
    as [[Hex ->]|[Hall (s' & -> & Hh)]].
  - split; [done|]. intros Hall. exfalso.
    apply Exists_exists in Hex as (input & Hin & He).
    rewrite Forall_forall in Hall. by apply (Hall input).
  - split; [|by rewrite Hh].
    intros Hex. exfalso.
    apply Exists_exists in Hex as (input & Hin & He).
    rewrite Forall_forall in Hall. by apply (Hall input).
Qed.

(** Instances. *)

Lemma executor_records_every_line_witness :
  ∃ s' did,
    executor (startup None) "  select 1; " = Continue s' did ∧
    historyLines s'
    = historyLines (startup None) ++ [TrimSpace "  select 1; "].
Proof.
  destruct (executor_records_every_line (startup None) "  select 1; ")
    as (_ & _ & H).
  apply H; vm_compute; discriminate.
Defined.

Lemma executor_keeps_flags_witness :
  let s := {| expandedMode := true; jsonMode := false; historyLines := [] |} in
  let s' := {| expandedMode := true; jsonMode := false;
               historyLines := ["select 1;"] |} in
  executor s "select 1;" = Continue s' [Query "select 1;" Expanded] ∧
  expandedMode s' = expandedMode s ∧ jsonMode s' = jsonMode s.
Proof.
  intros s s'. split; [vm_compute; reflexivity|].
  apply (executor_keeps_flags s "select 1;" s' [Query "select 1;" Expanded]);
    vm_compute; [reflexivity|discriminate|discriminate].
Defined.

Lemma main_saves_unless_exit_witness :
  main false None ["select 1;"; " exit "; "select 2;"] = None ∧
  main false None ["select 1;"; ""]
  = saveHistory false None (loadHistory None [] ++ recorded ["select 1;"; ""]).
Proof.
  split.
  - destruct (main_saves_unless_exit false None
                ["select 1;"; " exit "; "select 2;"]) as [H _].
    apply H. apply Exists_cons_tl, Exists_cons_hd. vm_compute. reflexivity.
  - destruct (main_saves_unless_exit false None ["select 1;"; ""]) as [_ H].
    apply H. repeat constructor; vm_compute; discriminate.
Defined.

(** ** More on completion *)

Section CompletionOrder.
Context (dbQuery : string → option (list (list Value)))
  (scanName scanColumn : list Value → string)
  (FindStringSubmatch : string → string → option (list string))
  (MapToUpper : string → string).

Lemma FilterHasPrefix_sublist completions sub :
  FilterHasPrefix MapToUpper completions sub `sublist_of` completions.
Proof.
  unfold FilterHasPrefix. destruct (decide (sub = "")); [done|].
  apply sublist_filter.
Qed.

(** X9.  The suggestions are taken from one source, the tables of the
    database or the columns of one table, and keep the order the engine
    gave them in: the completer filters and never sorts.  When no rule
    matches the text there is no suggestion. *)
Theorem completer_keeps_engine_order (text : string) :
  (∃ source,
     (source = getTableSuggestions dbQuery scanName ∨
      ∃ table, source = getColumnSuggestions dbQuery scanColumn table) ∧
     completer dbQuery scanName scanColumn FindStringSubmatch MapToUpper text
       `sublist_of` source) ∧
  (matchingRule FindStringSubmatch rules text = None →
   completer dbQuery scanName scanColumn FindStringSubmatch MapToUpper text
   = []).
Proof.
  unfold completer. rewrite firstMatch_matchingRule.
  destruct (matchingRule FindStringSubmatch rules text) as [[h m]|].
  - split; [|done]. destruct h as [prefixIdx|tableIdx colPrefixIdx]; simpl.
    + eexists. split; [by left|]. apply FilterHasPrefix_sublist.
    + eexists. split; [right; by eexists|]. apply FilterHasPrefix_sublist.
  - split; [|done]. eexists. split; [by left|]. apply sublist_nil_l.
Qed.

Lemma ToUpper_ASCII s : isASCII s = true → ToUpper MapToUpper s = upperASCII s.
Proof.
  intros Hs. unfold ToUpper. rewrite Hs.
  destruct (hasLower s) eqn:Hl; [done|]. by rewrite upperASCII_no_lower.
Qed.

Lemma upperASCII_empty s : upperASCII s = "" → s = "".
Proof. by destruct s. Qed.

(** X10.  The filter is blind to the case of the ASCII letters of the
    prefix: two ASCII prefixes that differ in case only keep the same
    suggestions. *)
Theorem FilterHasPrefix_ignores_case completions (sub sub' : string) :
  isASCII sub = true → isASCII sub' = true →
  upperASCII sub = upperASCII sub' →
  FilterHasPrefix MapToUpper completions sub =
  FilterHasPrefix MapToUpper completions sub'.
Proof.
  intros Hs Hs' Heq. unfold FilterHasPrefix.
  rewrite !ToUpper_ASCII by done. rewrite Heq.
  destruct (decide (sub = "")) as [->|Hne], (decide (sub' = "")) as [->|Hne'];
    try done.
  - symmetry in Heq. by apply upperASCII_empty in Heq.
  - by apply upperASCII_empty in Heq.
Qed.

End CompletionOrder.

(** Instances. *)

Lemma completer_keeps_engine_order_witness :
  completer (λ _ : string, @None (list (list Value))) (λ _ : list Value, "")
    (λ _ : list Value, "") (λ _ _ : string, @None (list string)) id "select"
  = [].
Proof.
  destruct (completer_keeps_engine_order
              (λ _ : string, @None (list (list Value))) (λ _ : list Value, "")
              (λ _ : list Value, "") (λ _ _ : string, @None (list string)) id
              "select") as [_ H].
  apply H. reflexivity.
Defined.

Lemma FilterHasPrefix_ignores_case_witness :
  let completions := [ {| Text := "Users"; Description := "table" |};
                       {| Text := "orders"; Description := "table" |} ] in
  FilterHasPrefix id completions "us" = FilterHasPrefix id completions "US".
Proof.
  intros completions.
  apply (FilterHasPrefix_ignores_case id completions "us" "US"); reflexivity.
Defined.

(** ** More on the cells of the three modes *)

Lemma hex_pair_value c :
  ascii_of_N (16 * hexValue (upperHexDigit (N.shiftr (byte c) 4)) +
              hexValue (upperHexDigit (N.land (byte c) 0x0F))) = c ∧
  ascii_of_N (16 * hexValue (hexDigit (N.shiftr (byte c) 4)) +
              hexValue (hexDigit (N.land (byte c) 0x0F))) = c ∧
  printableByte (hexDigit (N.shiftr (byte c) 4)) = true ∧
  printableByte (hexDigit (N.land (byte c) 0x0F)) = true.
Proof. destruct c as [[] [] [] [] [] [] [] []]; vm_compute; done. Qed.

Lemma decodeHex_upperHex v : decodeHex (upperHex v) = v.
Proof.
  induction v as [|c v IH]; [done|].
  destruct (hex_pair_value c) as (Hc & _). cbn [upperHex decodeHex].
  by rewrite Hc, IH.
Qed.

Lemma decodeHex_EncodeToString v : decodeHex (EncodeToString v) = v.
Proof.
  induction v as [|c v IH]; [done|].
  destruct (hex_pair_value c) as (_ & Hc & _). cbn [EncodeToString decodeHex].
  by rewrite Hc, IH.
Qed.

Lemma upperHex_length v : String.length (upperHex v) = 2 * String.length v.
Proof. induction v as [|c v IH]; [done|]. cbn [upperHex String.length]. lia. Qed.

(** X11.  In Table and Expanded mode a binary cell is shown with two
    characters for the prefix and two digits for each of its bytes, and
    two different binary cells are never shown alike. *)
Theorem formatValue_bytes_injective (MapToUpper : string → string)
    (FormatFloat : float64 → string) (v : string) :
  String.length (formatValue MapToUpper FormatFloat (VBytes v))
  = 2 + 2 * String.length v ∧
  ∀ w, formatValue MapToUpper FormatFloat (VBytes w)
       = formatValue MapToUpper FormatFloat (VBytes v) → w = v.
Proof.
  assert (Hshown : ∀ u, formatValue MapToUpper FormatFloat (VBytes u)
                        = String "\" (String "x" (upperHex u))).
  { intros u. simpl. by rewrite ToUpper_EncodeToString. }
  rewrite Hshown. split.
  - cbn [String.length]. rewrite upperHex_length. lia.
  - intros w. rewrite Hshown. intros [= Heq].
    by rewrite <- (decodeHex_upperHex w), Heq, decodeHex_upperHex.
Qed.

Lemma EncodeToString_printable v :
  forallb printableByte (bytes_of (EncodeToString v)) = true.
Proof.
  induction v as [|c v IH]; [done|].
  destruct (hex_pair_value c) as (_ & _ & Hh & Hl).
  change (bytes_of (EncodeToString (String c v)))
    with (hexDigit (N.shiftr (byte c) 4) :: hexDigit (N.land (byte c) 0x0F)
          :: bytes_of (EncodeToString v)).
  cbn [forallb]. by rewrite Hh, Hl, IH.
Qed.

(** X12.  What JSON mode stores for a binary cell is always a text of
    printable ASCII, and storing that text as a binary cell again gives
    the same value: a cell with a byte outside printable ASCII and the
    cell that holds the text of its token are stored alike. *)
Theorem jsonCell_bytes_printable (v : string) :
  ∃ s, jsonCell (VBytes v) = VString s ∧ isPrintable s = true ∧
       jsonCell (VBytes s) = VString s ∧
       (isPrintable v = false → s = "\x" +:+ EncodeToString v).
Proof.
  unfold jsonCell. destruct (isPrintable v) eqn:Hv.
  - exists v. by rewrite Hv.
  - assert (Hp : isPrintable ("\x" +:+ EncodeToString v) = true).
    { rewrite isPrintable_bytes.
      change (bytes_of ("\x" +:+ EncodeToString v))
        with ("\"%char :: "x"%char :: bytes_of (EncodeToString v)).
      cbn [forallb]. by rewrite EncodeToString_printable. }
    exists ("\x" +:+ EncodeToString v). by rewrite Hp.
Qed.

(** ** Table mode: the alignment of the columns *)

Section Alignment.
Context (ParseFloat Atoi : string → bool) (MapToUpper : string → string)
  (FormatFloat : float64 → string).

Local Abbreviation isNumeric := (isNumeric ParseFloat Atoi).
Local Abbreviation formatValue := (formatValue MapToUpper FormatFloat).

Lemma rightAligned_Align i sampleRow c :
  c ∈ rightAligned ParseFloat Atoi i sampleRow → Align_ c = AlignRight.
Proof.
  revert i. induction sampleRow as [|v rest IH]; intros i; simpl.
  - by intros ?%elem_of_nil.
  - destruct (isNumeric v); [|by apply IH].
    intros [->|Hc]%elem_of_cons; [done|]. by eapply IH.
Qed.

Lemma configuredAlign_right t n :
  (∀ c, c ∈ columnConfigs t → Align_ c = AlignRight) →
  (configuredAlign t n = AlignRight ↔
   {| Number := n; Align_ := AlignRight |} ∈ columnConfigs t) ∧
  (configuredAlign t n = AlignRight ∨ configuredAlign t n = AlignDefault).
Proof.
  intros Hall. unfold configuredAlign.
  destruct (filter (λ c, Number c = n) (columnConfigs t)) as [|c l] eqn:Hf.
  - split; [|by right]. split; [done|]. intros Hin.
    assert (Hc : {| Number := n; Align_ := AlignRight |}
                 ∈ filter (λ c, Number c = n) (columnConfigs t)).
    { by apply list_elem_of_filter. }
    rewrite Hf in Hc. by apply elem_of_nil in Hc.
  - assert (Hc : c ∈ filter (λ c, Number c = n) (columnConfigs t)).
    { rewrite Hf. apply elem_of_cons. by left. }
    apply list_elem_of_filter in Hc as [Hn Hc].
    pose proof (Hall c Hc) as Ha. split; [|by left].
    split; [|done]. intros _. destruct c as [m a]. simpl in *. by subst.
Qed.

(** X13.  Table mode configures a column either right-aligned or not at
    all, and right-aligned exactly when the table has a first row whose
    cell in that column is shown as a text that [isNumeric] accepts: the
    header and the later rows have no part in it, and a result with no
    row has no configured column.  Every row is handed to the writer with
    one text for each value. *)
Theorem printPrettyTable_alignment (cols : list string)
    (rows : list (list Value)) (n : nat) :
  let t := printPrettyTable ParseFloat Atoi MapToUpper FormatFloat cols rows in
  (configuredAlign t n = AlignRight ↔
   ∃ vals val, head rows = Some vals ∧ 0 < n ∧ vals !! (n - 1) = Some val ∧
               isNumeric (formatValue val) = true) ∧
  (configuredAlign t n = AlignRight ∨ configuredAlign t n = AlignDefault) ∧
  header t = cols ∧
  tableRows t = (λ vals : list Value, formatValue <$> vals) <$> rows.
Proof.
  intros t.
  assert (Hall : ∀ c, c ∈ columnConfigs t → Align_ c = AlignRight).
  { intros c. apply rightAligned_Align. }
  destruct (configuredAlign_right t n Hall) as [Hiff Hor].
  split; [|done]. rewrite Hiff. subst t. cbn [columnConfigs printPrettyTable].
  rewrite rightAligned_spec. destruct rows as [|vals rest]; cbn [head].
  - split; [|by intros (? & ? & ? & _)].
    intros (? & _ & Hl & _). by rewrite lookup_nil in Hl.
  - split.
    + intros (s & Hn & Hl & Hs).
      apply list_lookup_fmap_Some in Hl as (val & -> & Hl).
      by exists vals, val.
    + intros (vals' & val & [= <-] & Hn & Hl & Hs).
      exists (formatValue val). split; [done|]. split; [|done].
      by rewrite list_lookup_fmap, Hl.
Qed.

End Alignment.

(** ** JSON mode: the object of a row *)

Lemma jsonRow_lookup_other cols vals row col :
  col ∉ cols → jsonRow cols vals row !! col = row !! col.
Proof.
  revert vals row. induction cols as [|c cols IH]; intros vals row Hin; [done|].
  apply not_elem_of_cons in Hin as [Hne Hin].
  destruct vals as [|raw vals]; [done|]. cbn [jsonRow].
  rewrite IH by done. by apply lookup_insert_ne.
Qed.

Lemma jsonRow_lookup_last cols vals row i col :
  length vals = length cols → cols !! i = Some col →
  (∀ j, i < j → cols !! j ≠ Some col) →
  jsonRow cols vals row !! col = jsonCell <$> vals !! i.
Proof.
  revert vals row i. induction cols as [|c cols IH]; intros vals row i Hlen Hi Hlast;
    [done|].
  destruct vals as [|raw vals]; [done|]. cbn [jsonRow].
  injection Hlen as Hlen. destruct i as [|i].
  - injection Hi as ->. rewrite jsonRow_lookup_other.
    + by rewrite lookup_insert_eq.
    + intros [j Hj]%list_elem_of_lookup_1. by apply (Hlast (S j)); [lia|].
  - change ((raw :: vals) !! S i) with (vals !! i).
    apply IH; [done|done|]. intros j Hj. apply (Hlast (S j)). lia.
Qed.

Lemma jsonRow_dom cols vals row :
  length vals = length cols →
  dom (jsonRow cols vals row) = list_to_set cols ∪ dom row.
Proof.
  revert vals row. induction cols as [|c cols IH]; intros vals row Hlen.
  - destruct vals; [|done]. simpl. by rewrite (left_id_L ∅ (∪)).
  - destruct vals as [|raw vals]; [done|]. injection Hlen as Hlen.
    cbn [jsonRow list_to_set]. rewrite IH by done. rewrite dom_insert_L.
    rewrite (assoc_L (∪)). f_equal. apply (comm_L (∪)).
Qed.

(** X18.  The object JSON mode builds for a row has one member for each
    distinct column name: when two columns of the result have the same
    name, the object holds the cell of the last of them only, and the
    cells of the others are not in the output. *)
Theorem jsonRow_duplicate_columns (cols : list string) (vals : list Value) :
  length vals = length cols →
  dom (jsonRow cols vals ∅) = list_to_set cols ∧
  (∀ i col, cols !! i = Some col → (∀ j, i < j → cols !! j ≠ Some col) →
            jsonRow cols vals ∅ !! col = jsonCell <$> vals !! i) ∧
  (∀ col, col ∉ cols → jsonRow cols vals ∅ !! col = None).
Proof.
  intros Hlen. split; [|split].
  - rewrite jsonRow_dom by done. by rewrite dom_empty_L, (right_id_L ∅ (∪)).
  - intros i col. by apply jsonRow_lookup_last.
  - intros col Hin. by rewrite jsonRow_lookup_other.
Qed.

(** X19.  A timestamp cell has a fixed width: for a year of at most four
    digits the text has 26 characters, with the separators at fixed
    places, so that the cells of a column line up whatever the fraction
    of the second is. *)
Theorem formatTimePadded_width (t : Time) :
  (0 ≤ Year t < 10000)%Z →
  (Month t < 100)%N → (Day t < 100)%N → (Hour t < 100)%N →
  (Minute t < 100)%N → (Second t < 100)%N → (Nanosecond t < 10 ^ 9)%N →
  String.length (formatTimePadded t) = 26 ∧
  String.get 19 (formatTimePadded t) = Some "."%char.
Proof.
  intros Hy Hmo Hd Hh Hmi Hs Hns.
  destruct (formatTimePadded_microseconds t Hns) as (frac & -> & Hlen & _).
  pose proof (Format_DateTime_length t Hy Hmo Hd Hh Hmi Hs) as Hbase.
  split.
  - rewrite !string_length_app, Hbase, Hlen. reflexivity.
  - revert Hbase. generalize (Format_DateTime t). intros base Hbase.
    do 20 (destruct base as [|? base]; try discriminate Hbase).
    reflexivity.
Qed.

(** Instances. *)

Lemma jsonCell_bytes_printable_witness :
  ∃ s, jsonCell (VBytes (String "000" "")) = VString s ∧
       s = "\x" +:+ EncodeToString (String "000" "").
Proof.
  destruct (jsonCell_bytes_printable (String "000" ""))
    as (s & Hs & _ & _ & Hhex).
  exists s. split; [exact Hs|]. apply Hhex. reflexivity.
Defined.

Lemma jsonRow_duplicate_columns_witness :
  jsonRow ["id"; "id"] [VInt64 1; VInt64 2] ∅ !! "id" = Some (VInt64 2).
Proof.
  destruct (jsonRow_duplicate_columns ["id"; "id"] [VInt64 1; VInt64 2] eq_refl)
    as (_ & H & _).
  apply (H 1 "id" eq_refl). intros [|[|j]] Hj; [lia|lia|discriminate].
Defined.

Lemma formatTimePadded_width_witness :
  let t := {| Year := 2024; Month := 2; Day := 29; Hour := 23; Minute := 59;
              Second := 7; Nanosecond := 1234567 |} in
  String.length (formatTimePadded t) = 26 ∧
  String.get 19 (formatTimePadded t) = Some "."%char.
Proof.
  intros t. apply (formatTimePadded_width t); vm_compute; first [reflexivity|lia|done].
Defined.

(** ** Table mode: what [isNumeric] reads of a cell *)

Local Open Scope N_scope.

Lemma isDigit_classes c :
  isDigit c = true →
  byte c < 0x80 ∧ IsSpace (byte c) = false ∧
  (byte c =? byte CR) = false ∧ (byte c =? byte LF) = false ∧
  indexByte "nN" c = false ∧ indexByte sign c = false ∧
  indexByte "iI" c = false ∧ indexByte "xX" c = false ∧
  indexByte (decimalDigits +:+ "_") c = true ∧ c ≠ "p"%char.
Proof.
  destruct c as [[] [] [] [] [] [] [] []]; intros H; try discriminate H;
    vm_compute; repeat split; congruence.
Qed.

Lemma endsNumber_classes c t :
  endsNumber (String c t) = true →
  indexByte (decimalDigits +:+ "_") c = false ∧ indexByte period c = false ∧
  indexByte exponent c = false ∧ indexByte "xX" c = false.
Proof.
  unfold endsNumber. intros H%negb_true_iff. revert H.
  unfold indexByte.
  change (bytes_of numberBytes) with
    (bytes_of (decimalDigits +:+ "_") ++ bytes_of period ++ bytes_of exponent
     ++ bytes_of "xX").
  rewrite !existsb_app. intros H.
  apply orb_false_elim in H as [H1 H]. apply orb_false_elim in H as [H2 H].
  apply orb_false_elim in H as [H3 H]. done.
Qed.

Local Close Scope N_scope.

Lemma string_of_bytes_of s : string_of (bytes_of s) = s.
Proof. apply string_of_list_ascii_of_string. Qed.

Lemma acceptAll_digits d buf t :
  allDigits d = true → endsNumber t = true →
  acceptAll (decimalDigits +:+ "_") buf (bytes_of d ++ bytes_of t)
  = (buf ++ bytes_of d, bytes_of t).
Proof.
  intros Hd Ht. revert buf. induction d as [|c d IH]; intros buf.
  - change (bytes_of "") with (@nil ascii). rewrite app_nil_r. cbn [app].
    destruct t as [|c t]; [done|].
    destruct (endsNumber_classes c t Ht) as (Hc & _).
    change (bytes_of (String c t)) with (c :: bytes_of t).
    cbn [acceptAll]. by rewrite Hc.
  - cbn [allDigits] in Hd. apply andb_true_iff in Hd as [Hc Hd].
    destruct (isDigit_classes c Hc) as (_ & _ & _ & _ & _ & _ & _ & _ & Hin & _).
    change (bytes_of (String c d)) with (c :: bytes_of d).
    cbn [app acceptAll]. rewrite Hin, (IH Hd), <- app_assoc. done.
Qed.

Lemma accept_head ok buf c rest :
  accept ok (buf, c :: rest)
  = if indexByte ok c then (true, (buf ++ [c], rest))
    else (false, (buf, c :: rest)).
Proof. reflexivity. Qed.

Lemma accept_end ok buf (t : string) :
  (∀ c t', t = String c t' → indexByte ok c = false) →
  accept ok (buf, bytes_of t) = (false, (buf, bytes_of t)).
Proof.
  intros H. destruct t as [|c t']; [done|].
  change (bytes_of (String c t')) with (c :: bytes_of t').
  by rewrite accept_head, (H c t' eq_refl).
Qed.

Lemma indexRune_digits d c :
  allDigits d = true → isDigit c = false → indexRune d c = None.
Proof.
  intros Hd Hc. induction d as [|x d IH]; [done|].
  cbn [allDigits] in Hd. apply andb_true_iff in Hd as [Hx Hd].
  cbn [indexRune]. destruct (decide (x = c)) as [->|_]; [congruence|].
  by rewrite (IH Hd).
Qed.

Section NumericCells.
Context (ParseFloat Atoi : string → bool) (MapToUpper : string → string)
  (FormatFloat : float64 → string).

(** The token of a decimal number, with a minus sign or none, that is
    followed by the end of the text or by a byte that cannot carry it
    on. *)
Lemma floatToken_number (neg : bool) (d t : string) :
  d ≠ "" → allDigits d = true → endsNumber t = true →
  floatToken ((if neg then ["-"%char] else [])
              ++ bytes_of d ++ bytes_of t)
  = (if neg then "-" else "") +:+ d.
Proof.
  intros Hne Hd Ht. destruct d as [|c d]; [done|]. clear Hne.
  pose proof Hd as Hcd. cbn [allDigits] in Hcd.
  apply andb_true_iff in Hcd as [Hc Hd'].
  destruct (isDigit_classes c Hc)
    as (_ & _ & _ & _ & HnN & Hsign & HiI & HxX & Hdig & _).
  assert (Hperiod : ∀ x t', t = String x t' → indexByte period x = false).
  { intros x t' ->. by destruct (endsNumber_classes x t' Ht) as (_ & ? & _). }
  assert (Hexp : ∀ x t', t = String x t' → indexByte exponent x = false).
  { intros x t' ->. by destruct (endsNumber_classes x t' Ht) as (_ & _ & ? & _). }
  assert (Hx : ∀ buf, accept "xX" (buf, bytes_of d ++ bytes_of t)
                      = (false, (buf, bytes_of d ++ bytes_of t))).
  { intros buf. destruct d as [|x d].
    - destruct t as [|x t']; [done|].
      destruct (endsNumber_classes x t' Ht) as (_ & _ & _ & Hxx).
      change (bytes_of "" ++ bytes_of (String x t')) with (x :: bytes_of t').
      by rewrite accept_head, Hxx.
    - cbn [allDigits] in Hd'. apply andb_true_iff in Hd' as [Hxd _].
      destruct (isDigit_classes x Hxd) as (_ & _ & _ & _ & _ & _ & _ & Hxx & _).
      change (bytes_of (String x d) ++ bytes_of t)
        with (x :: bytes_of d ++ bytes_of t).
      by rewrite accept_head, Hxx. }
  change (bytes_of (String c d)) with (c :: bytes_of d).
  assert (Hgo : ∀ buf,
    (let s : ss := (buf, c :: bytes_of d ++ bytes_of t) in
     let '(inf, s) :=
       andThen (andThen (accept "iI") (accept "nN")) (accept "fF") s in
     if inf then string_of s.1 else
     let '(hex, s) := andThen (accept "0") (accept "xX") s in
     let digits := (if hex then hexadecimalDigits else decimalDigits) +:+ "_" in
     let exp := if hex then "pP" else exponent in
     let s := acceptAll digits s.1 s.2 in
     let '(dot, s) := accept period s in
     let s := if dot then acceptAll digits s.1 s.2 else s in
     let '(e, s) := accept exp s in
     let s :=
       if e then
         let '(_, s) := accept sign s in
         acceptAll (decimalDigits +:+ "_") s.1 s.2
       else s in
     string_of s.1) = string_of (buf ++ c :: bytes_of d)).
  { intros buf. cbv zeta. unfold andThen at 1 2.
    rewrite accept_head, HiI.
    unfold andThen. rewrite accept_head.
    destruct (indexByte "0" c) eqn:H0.
    - rewrite Hx. cbn [fst snd].
      rewrite (acceptAll_digits d (buf ++ [c]) t Hd' Ht).
      rewrite (accept_end period _ t Hperiod), (accept_end exponent _ t Hexp).
      cbn [fst]. by rewrite <- app_assoc.
    - cbn [fst snd].
      change (c :: bytes_of d ++ bytes_of t)
        with (bytes_of (String c d) ++ bytes_of t).
      rewrite (acceptAll_digits (String c d) buf t Hd Ht).
      rewrite (accept_end period _ t Hperiod), (accept_end exponent _ t Hexp).
      done. }
  destruct neg.
  - change (["-"%char] ++ (c :: bytes_of d) ++ bytes_of t)
      with ("-"%char :: c :: bytes_of d ++ bytes_of t).
    unfold floatToken. cbv zeta. unfold andThen at 1 2.
    rewrite accept_head.
    change (indexByte "nN" "-") with false. cbv iota.
    rewrite accept_head. change (indexByte sign "-") with true. cbv iota.
    refine (eq_trans (Hgo ["-"%char]) _).
    apply (string_of_bytes_of ("-" +:+ String c d)).
  - change ([] ++ (c :: bytes_of d) ++ bytes_of t)
      with (c :: bytes_of d ++ bytes_of t).
    unfold floatToken. cbv zeta. unfold andThen at 1 2.
    rewrite accept_head, HnN. rewrite accept_head, Hsign.
    refine (eq_trans (Hgo []) _).
    apply (string_of_bytes_of (String c d)).
Qed.

Lemma SkipSpace_start c rest :
  (byte c < 0x80)%N → IsSpace (byte c) = false →
  (byte c =? byte CR)%N = false → (byte c =? byte LF)%N = false →
  SkipSpace (c :: rest) = Some (c :: rest).
Proof.
  intros Hlt Hsp Hcr Hlf. unfold SkipSpace.
  change (skipSpaceFrom 0 (c :: rest)) with
    (let '(r, size) := DecodeRuneInString (c :: rest) in
     if (r =? byte CR)%N && bool_decide (head rest = Some LF) then
       skipSpaceFrom 0 rest
     else if (r =? byte LF)%N then None
     else if IsSpace r then skipSpaceFrom (size - 1) rest
     else Some (c :: rest)).
  by rewrite (decode_ascii c rest Hlt), Hcr, Hlf, Hsp.
Qed.

Lemma isNumeric_number (neg : bool) (d t : string) :
  d ≠ "" → allDigits d = true → endsNumber t = true →
  isNumeric ParseFloat Atoi ((if neg then "-" else "") +:+ d +:+ t)
  = ParseFloat ((if neg then "-" else "") +:+ d).
Proof.
  intros Hne Hd Ht. unfold isNumeric, Sscanf_f.
  rewrite !bytes_of_app.
  replace (bytes_of (if neg then "-" else ""))
    with (if neg then ["-"%char] else []) by (by destruct neg).
  pose proof (floatToken_number neg d t Hne Hd Ht) as Htok.
  assert (Hskip : ∃ c rest,
    (if neg then ["-"%char] else []) ++ bytes_of d ++ bytes_of t = c :: rest ∧
    SkipSpace (c :: rest) = Some (c :: rest)).
  { destruct neg.
    - eexists _, _. split; [reflexivity|]. by apply SkipSpace_start.
    - destruct d as [|c d]; [done|]. cbn [allDigits] in Hd.
      apply andb_true_iff in Hd as [Hc _].
      destruct (isDigit_classes c Hc) as (? & ? & ? & ? & _).
      eexists _, _. split; [reflexivity|]. by apply SkipSpace_start. }
  destruct Hskip as (c & rest & Heq & Hskip).
  rewrite Heq in Htok |- *. rewrite Hskip, Htok.
  unfold convertFloat.
  assert (Hp : indexRune ((if neg then "-" else "") +:+ d) "p" = None).
  { destruct neg.
    - change ("-" +:+ d) with (String "-" d). cbn [indexRune].
      destruct (decide ("-"%char = "p"%char)) as [?|_]; [done|].
      by rewrite (indexRune_digits d "p" Hd).
    - by apply indexRune_digits. }
  by rewrite Hp.
Qed.

(** X14.  [isNumeric] reads a decimal number at the start of the cell and
    asks [strconv.ParseFloat] about that number alone: whatever follows
    it, from the first byte that cannot carry a number on, is not
    looked at. *)
Theorem isNumeric_reads_leading_number (neg : bool) (d t u : string) :
  d ≠ "" → allDigits d = true → endsNumber t = true → endsNumber u = true →
  isNumeric ParseFloat Atoi ((if neg then "-" else "") +:+ d +:+ t)
  = ParseFloat ((if neg then "-" else "") +:+ d) ∧
  isNumeric ParseFloat Atoi ((if neg then "-" else "") +:+ d +:+ t)
  = isNumeric ParseFloat Atoi ((if neg then "-" else "") +:+ d +:+ u).
Proof.
  intros Hne Hd Ht Hu. by rewrite !isNumeric_number.
Qed.

Lemma append_cons_nonempty (a : string) x b : a +:+ String x b ≠ "".
Proof. by destruct a. Qed.

Lemma FormatUint_digits n :
  FormatUint n ≠ "" ∧ allDigits (FormatUint n) = true.
Proof.
  split; [|apply formatBits_allDigits].
  unfold FormatUint. cbn [formatBits]. destruct (n <? 10)%N; [done|].
  rewrite formatBits_acc. apply append_cons_nonempty.
Qed.

Lemma zeroPadded_digits width n :
  zeroPadded width n ≠ "" ∧ allDigits (zeroPadded width n) = true.
Proof.
  destruct (FormatUint_digits n) as [Hne Hd]. unfold zeroPadded. split.
  - destruct (FormatUint n) as [|x r]; [done|]. apply append_cons_nonempty.
  - by rewrite allDigits_app, zeros_allDigits, Hd.
Qed.

(** X15.  How Table mode classifies the cells of the first row by their
    kind: a NULL, a boolean and a binary cell are numeric only if
    [strconv.ParseFloat] accepts the text [N] or the empty text; an
    integer cell is judged by its whole text; and a timestamp cell by its
    year alone. *)
Theorem isNumeric_formatValue_by_kind :
  let numeric val :=
    isNumeric ParseFloat Atoi (formatValue MapToUpper FormatFloat val) in
  numeric VNil = ParseFloat "N" ∧
  (∀ b, numeric (VBool b) = ParseFloat "") ∧
  (∀ v, numeric (VBytes v) = ParseFloat "") ∧
  (∀ n, numeric (VInt64 n) = ParseFloat (FormatInt n)) ∧
  (∀ t, numeric (VTime t) = ParseFloat (appendInt (Year t) 4)).
Proof.
  intros numeric. subst numeric. cbv beta.
  split; [reflexivity|]. split; [by intros []|]. split; [|split].
  - intros v. cbn [formatValue]. rewrite ToUpper_EncodeToString. reflexivity.
  - intros n. cbn [formatValue]. unfold FormatInt.
    destruct (n <? 0)%Z.
    + destruct (FormatUint_digits (Z.abs_N n)) as [Hne Hd].
      pose proof (isNumeric_number true _ "" Hne Hd eq_refl) as H.
      by rewrite string_app_empty_r in H.
    + destruct (FormatUint_digits (Z.to_N n)) as [Hne Hd].
      pose proof (isNumeric_number false _ "" Hne Hd eq_refl) as H.
      by rewrite string_app_empty_r in H.
  - intros t. cbn [formatValue]. unfold formatTimePadded, Format_DateTime, appendInt.
    destruct (zeroPadded_digits 4 (Z.abs_N (Year t))) as [Hne Hd].
    rewrite !string_app_assoc.
    destruct (Year t <? 0)%Z.
    + by apply (isNumeric_number true).
    + by apply (isNumeric_number false).
Qed.

End NumericCells.

(** Instances. *)

Lemma isNumeric_reads_leading_number_witness :
  let ParseFloat := λ s : string, bool_decide (s = "42") in
  let Atoi := λ _ : string, false in
  isNumeric ParseFloat Atoi ("42" +:+ "abc") = ParseFloat "42" ∧
  isNumeric ParseFloat Atoi ("42" +:+ "abc")
  = isNumeric ParseFloat Atoi ("42" +:+ " kg").
Proof.
  intros ParseFloat Atoi.
  apply (isNumeric_reads_leading_number ParseFloat Atoi false "42" "abc" " kg");
    first [discriminate|reflexivity].
Defined.

(** ** Expanded mode *)

Ltac decode_SP :=
  repeat match goal with
  | |- context [byte " " <? ?x] => closed_eval (byte " " <? x)%N
  | |- context [?x <? byte " "] => closed_eval (x <? byte " ")%N
  end;
  cbn [orb].

(** A space after a truncated encoding does not complete it. *)
Lemma decode_snoc_space c0 t :
  DecodeRuneInString ((c0 :: t) ++ [" "%char]) = DecodeRuneInString (c0 :: t).
Proof.
  cbn [app].
  decode_cases c0; try done;
    destruct t as [|c1 [|c2 [|c3 t]]]; decode_norm; decode_SP;
    split_ifs; done.
Qed.

Lemma decode_app_spaces c0 t n :
  DecodeRuneInString ((c0 :: t) ++ replicate n " "%char)
  = DecodeRuneInString (c0 :: t).
Proof.
  induction n as [|n IH]; [by rewrite app_nil_r|].
  rewrite replicate_S_end, app_assoc.
  change ((c0 :: t) ++ replicate n " "%char)
    with (c0 :: (t ++ replicate n " "%char)) in *.
  by rewrite decode_snoc_space.
Qed.

Lemma runeCountFrom_spaces n : runeCountFrom 0 (replicate n " "%char) = n.
Proof. induction n as [|n IH]; [done|]. simpl. by rewrite IH. Qed.

Lemma runeCountFrom_zero c t :
  runeCountFrom 0 (c :: t)
  = S (runeCountFrom ((DecodeRuneInString (c :: t)).2 - 1) t).
Proof.
  change (runeCountFrom 0 (c :: t)) with
    (let '(_, size) := DecodeRuneInString (c :: t) in
     S (runeCountFrom (size - 1) t)).
  by destruct (DecodeRuneInString (c :: t)).
Qed.

Lemma runeCountFrom_le s k : k ≤ length s → runeCountFrom k s ≤ length s - k.
Proof.
  revert k. induction s as [|c t IH]; intros k Hk; [done|].
  destruct k as [|k].
  - rewrite runeCountFrom_zero. pose proof (decode_size c t) as Hsize.
    cbn [length] in *.
    specialize (IH ((DecodeRuneInString (c :: t)).2 - 1) ltac:(lia)). lia.
  - cbn [runeCountFrom length] in *. specialize (IH k ltac:(lia)). lia.
Qed.

Lemma runeCountFrom_app_spaces s k n :
  k ≤ length s →
  runeCountFrom k (s ++ replicate n " "%char) = runeCountFrom k s + n.
Proof.
  revert k. induction s as [|c t IH]; intros k Hk.
  - assert (k = 0) as -> by (simpl in Hk; lia). apply runeCountFrom_spaces.
  - destruct k as [|k].
    + change ((c :: t) ++ replicate n " "%char)
        with (c :: (t ++ replicate n " "%char)).
      rewrite !runeCountFrom_zero.
      change (c :: (t ++ replicate n " "%char))
        with ((c :: t) ++ replicate n " "%char).
      rewrite decode_app_spaces. pose proof (decode_size c t) as Hsize.
      cbn [length] in Hsize. rewrite IH by lia. done.
    + cbn [app runeCountFrom length] in *. apply IH. lia.
Qed.

Lemma bytes_of_Repeat_space n :
  bytes_of (Repeat " " n) = replicate n " "%char.
Proof. induction n as [|n IH]; [done|]. simpl. by rewrite <- IH. Qed.

Lemma length_bytes_of s : length (bytes_of s) = String.length s.
Proof. induction s as [|c s IH]; [done|]. simpl. by rewrite <- IH. Qed.

Lemma RuneCountInString_le s : RuneCountInString s ≤ String.length s.
Proof.
  unfold RuneCountInString. rewrite <- length_bytes_of.
  pose proof (runeCountFrom_le (bytes_of s) 0). lia.
Qed.

Lemma RuneCountInString_padString wid s :
  RuneCountInString (padString wid s) = max wid (RuneCountInString s).
Proof.
  unfold padString, RuneCountInString at 1.
  rewrite bytes_of_app, bytes_of_Repeat_space.
  rewrite runeCountFrom_app_spaces by lia.
  fold (RuneCountInString s). lia.
Qed.

Lemma maxKeyLen_foldl cols m :
  let f := λ m col, if m <? String.length col then String.length col else m in
  m ≤ foldl f m cols ∧
  Forall (λ col, String.length col ≤ foldl f m cols) cols.
Proof.
  intros f. revert m. induction cols as [|col cols IH]; intros m; [done|].
  cbn [foldl]. destruct (IH (f m col)) as [Hm Hall].
  assert (Hf : m ≤ f m col ∧ String.length col ≤ f m col).
  { unfold f. destruct (Nat.ltb_spec m (String.length col)); lia. }
  split; [lia|]. constructor; [lia|done].
Qed.

Lemma maxKeyLen_ge cols col : col ∈ cols → String.length col ≤ maxKeyLen cols.
Proof.
  intros Hin. destruct (maxKeyLen_foldl cols 0) as [_ Hall].
  rewrite Forall_forall in Hall. by apply Hall.
Qed.

Lemma HasPrefix_append s t : HasPrefix (s +:+ t) s = true.
Proof.
  unfold HasPrefix. apply andb_true_intro. split.
  - apply Nat.leb_le. rewrite string_length_app. lia.
  - apply String.eqb_eq. induction s as [|c s IH]; [by destruct t|].
    simpl. by rewrite IH.
Qed.

Section ExpandedMode.
Context (MapToUpper : string → string) (FormatFloat : float64 → string)
  (Log10 : nat → nat).

Lemma scanRows_app (before : list (list Value)) rest allData :
  scanRows MapToUpper FormatFloat ((inl <$> before) ++ rest) allData
  = scanRows MapToUpper FormatFloat rest
      (allData ++ ((λ vals : list Value,
                      formatValue MapToUpper FormatFloat <$> vals)
                   <$> before)).
Proof.
  revert allData. induction before as [|vals before IH]; intros allData; simpl.
  - by rewrite app_nil_r.
  - by rewrite IH, <- app_assoc.
Qed.

Lemma length_concat_imap {A B} (f : nat → A → list B) (l : list A) c :
  (∀ i x, length (f i x) = c) → length (concat (imap f l)) = length l * c.
Proof.
  revert f. induction l as [|x l IH]; intros f Hf; [done|].
  cbn [imap concat length]. rewrite length_app, Hf, IH; [lia|].
  intros i y. apply Hf.
Qed.

(** X16.  In Expanded mode the separators of the fields line up: the label
    of every field is the name of the column followed by spaces, and has
    exactly as many runes as the longest column name has bytes. *)
Theorem fieldLine_aligned (cols : list string) (col val : string) :
  col ∈ cols →
  ∃ label,
    fieldLine (maxKeyLen cols) col val = label +:+ " | " +:+ val +:+ nl ∧
    HasPrefix label col = true ∧
    RuneCountInString label = maxKeyLen cols.
Proof.
  intros Hin. exists (padString (maxKeyLen cols) col). split; [done|]. split.
  - apply HasPrefix_append.
  - rewrite RuneCountInString_padString.
    pose proof (maxKeyLen_ge cols col Hin).
    pose proof (RuneCountInString_le col). lia.
Qed.

(** X17.  Expanded mode prints a result whole or not at all.  When a row
    fails to scan, only the failure is printed, whatever rows came before
    it, and the error is returned.  A result with no row prints nothing
    and returns false.  Otherwise true is returned and every row is
    printed as a header, one line for each column and an empty line. *)
Theorem printExpanded_all_or_nothing (cols : list string) :
  (∀ (before : list (list Value)) err after,
     printExpanded MapToUpper FormatFloat Log10 cols
       ((inl <$> before) ++ inr err :: after)
     = ((false, Some err), ["Failed to scan row: " +:+ err +:+ nl])) ∧
  printExpanded MapToUpper FormatFloat Log10 cols [] = ((false, None), []) ∧
  (∀ data : list (list Value), data ≠ [] →
     let '(result, printed) :=
       printExpanded MapToUpper FormatFloat Log10 cols (inl <$> data) in
     result = (true, None) ∧
     length printed = length data * (length cols + 2)).
Proof.
  split; [|split].
  - intros before err after. unfold printExpanded.
    by rewrite scanRows_app.
  - reflexivity.
  - intros data Hne. unfold printExpanded.
    rewrite <- (app_nil_r (inl <$> data)), scanRows_app. cbn [scanRows app].
    destruct data as [|vals data]; [done|]. cbn [fmap list_fmap length Nat.eqb].
    split; [done|]. rewrite length_concat_imap with (c := length cols + 2).
    + by rewrite length_cons, length_fmap.
    + intros i row. unfold printRecord.
      rewrite length_cons, length_app, length_imap. simpl. lia.
Qed.

End ExpandedMode.

(** Instances. *)

Lemma fieldLine_aligned_witness :
  ∃ label,
    fieldLine (maxKeyLen ["id"; "name"]) "id" "7"
    = label +:+ " | " +:+ "7" +:+ nl ∧
    HasPrefix label "id" = true ∧
    RuneCountInString label = maxKeyLen ["id"; "name"].
Proof.
  apply (fieldLine_aligned ["id"; "name"] "id" "7"). apply list_elem_of_here.
Defined.

Lemma printExpanded_all_or_nothing_witness :
  let '(result, printed) :=
    printExpanded id (λ _, "") (λ _, 0) ["a"; "b"]
      (inl <$> [[VNil; VInt64 1]; [VNil; VInt64 2]]) in
  result = (true, None) ∧ length printed = 2 * (2 + 2).
Proof.
  destruct (printExpanded_all_or_nothing id (λ _, "") (λ _, 0) ["a"; "b"])
    as (_ & _ & H).
  apply (H [[VNil; VInt64 1]; [VNil; VInt64 2]]). discriminate.
Defined.
